(** * ts::unique_ptr (ts_memory.h): a sequential model of the thread-safe
      owning pointer and its access guards.

    The header couples a [std::unique_ptr] with a mutex.  Every operation of
    the header is embedded as a computation over an explicit world that holds
    the live containers (by address, so that references alias), the free
    store, and a log of the observable calls made on the collaborators the
    header is parameterised by: the mutex ([lock]/[unlock]) and the deleter.

    The operations are first run by one thread of control.  There, an
    acquisition that would wait for a mutex nobody in this thread can
    release never returns: outcome [Blocked].  The last part cuts the moves
    into their atomic calls and interleaves two threads. *)

From Stdlib Require Import ZArith Lia.
From stdpp Require Import gmap list relations.

Local Open Scope Z_scope.

(** ** Addresses, pointers and the free store *)

(** Containers and arrays live at addresses; a raw pointer is null or points
    [off] elements into an allocated block. *)
Abbreviation addr := nat (only parsing).
Abbreviation block := nat (only parsing).

Inductive pointer : Type :=
| nullptr
| Ptr (b : block) (off : Z).

#[global] Instance pointer_eq_dec : EqDecision pointer.
Proof. solve_decision. Defined.

(** [p + i] of the language. *)
Definition ptr_add (p : pointer) (i : Z) : pointer :=
  match p with
  | nullptr => nullptr
  | Ptr b off => Ptr b (off + i)
  end.

(** A deleter is a callable invoked with the raw managed pointer. *)
Definition deleter (T : Type) : Type :=
  pointer -> gmap block (list T) -> gmap block (list T).

(** [std::default_delete]: [delete p] / [delete[] p] gives the block back. *)
Definition default_delete {T : Type} : deleter T :=
  fun p h => match p with
             | nullptr => h
             | Ptr b _ => delete b h
             end.

(** Calls on the collaborators, in program order. *)
Inductive event (T : Type) : Type :=
| EvLock (m : addr)
| EvUnlock (m : addr)
| EvCleanup (d : deleter T) (p : pointer).
Arguments EvLock {T} m.
Arguments EvUnlock {T} m.
Arguments EvCleanup {T} d p.

Definition is_cleanup_of {T} (p : pointer) (e : event T) : bool :=
  match e with
  | EvCleanup _ q => bool_decide (q = p)
  | _ => false
  end.

(** How many times a cleanup action was invoked on [p]. *)
Definition cleanups {T} (p : pointer) (l : list (event T)) : nat :=
  length (List.filter (is_cleanup_of p) l).

Definition is_unlock_of {T} (m : addr) (e : event T) : bool :=
  match e with
  | EvUnlock m' => bool_decide (m' = m)
  | _ => false
  end.

Definition is_lock_of {T} (m : addr) (e : event T) : bool :=
  match e with
  | EvLock m' => bool_decide (m' = m)
  | _ => false
  end.

(** How many times mutex [m] was released / acquired. *)
Definition releases {T} (m : addr) (l : list (event T)) : nat :=
  length (List.filter (is_unlock_of m) l).
Definition acquisitions {T} (m : addr) (l : list (event T)) : nat :=
  length (List.filter (is_lock_of m) l).

(** ** The objects of the header *)

(** [std::unique_ptr<T, TDeleter>]: stored pointer and deleter. *)
Record std_unique_ptr (T : Type) : Type := MkStdUniquePtr {
  _M_ptr : pointer;
  _M_deleter : deleter T
}.
Arguments MkStdUniquePtr {T} _ _.
Arguments _M_ptr {T} _.
Arguments _M_deleter {T} _.

(** [TMutex], by default [std::mutex]: a non-recursive exclusive lock. *)
Record mutex : Type := MkMutex { locked : bool }.

(** [ts::unique_ptr<T, TMutex, TDeleter>]: its two data members. *)
Record unique_ptr (T : Type) : Type := MkUniquePtr {
  m_mtx : mutex;
  m_value : std_unique_ptr T
}.
Arguments MkUniquePtr {T} _ _.
Arguments m_mtx {T} _.
Arguments m_value {T} _.

Record world (T : Type) : Type := MkWorld {
  objects : gmap addr (unique_ptr T);
  heap : gmap block (list T);
  log : list (event T)
}.
Arguments MkWorld {T} _ _ _.
Arguments objects {T} _.
Arguments heap {T} _.
Arguments log {T} _.

(** ** Computations *)

Inductive outcome (T A : Type) : Type :=
| Done (a : A) (w : world T)
| Blocked
| Undefined.
Arguments Done {T A} a w.
Arguments Blocked {T A}.
Arguments Undefined {T A}.

Definition M (T A : Type) : Type := world T -> outcome T A.

Definition ret {T A} (a : A) : M T A := fun w => Done a w.

Definition bind {T A B} (c : M T A) (k : A -> M T B) : M T B :=
  fun w => match c w with
           | Done a w' => k a w'
           | Blocked => Blocked
           | Undefined => Undefined
           end.

Declare Scope prog_scope.
Delimit Scope prog_scope with prog.
Notation "'let*' x := c 'in' k" := (bind c (fun x => k))
  (at level 10, x binder, c at level 100, k at level 200) : prog_scope.
Notation "c ;; k" := (bind c (fun _ => k))
  (at level 100, k at level 200, right associativity) : prog_scope.
Local Open Scope prog_scope.

Section primitives.
Context {T : Type}.

Definition blocked {A} : M T A := fun _ => Blocked.
Definition undefined {A} : M T A := fun _ => Undefined.

(** [*a] for a container address: using a dead object is undefined. *)
Definition deref (a : addr) : M T (unique_ptr T) :=
  fun w => match objects w !! a with
           | Some c => Done c w
           | None => Undefined
           end.

Definition assign (a : addr) (c : unique_ptr T) : M T unit :=
  fun w => Done tt (MkWorld (<[a:=c]> (objects w)) (heap w) (log w)).

Definition emit (e : event T) : M T unit :=
  fun w => Done tt (MkWorld (objects w) (heap w) (log w ++ [e])).

(** Calling the deleter [d] on [p]. *)
Definition invoke (d : deleter T) (p : pointer) : M T unit :=
  emit (EvCleanup d p);;
  fun w => Done tt (MkWorld (objects w) (d p (heap w)) (log w)).

(** Placement of a new container object at an unused address. *)
Definition construct (c : unique_ptr T) : M T addr :=
  fun w => let a := fresh (dom (objects w)) in
           Done a (MkWorld (<[a:=c]> (objects w)) (heap w) (log w)).

Definition destruct_at (a : addr) : M T unit :=
  fun w => Done tt (MkWorld (delete a (objects w)) (heap w) (log w)).

(** [new T[n]]: a new block of [n] default-initialised elements.
    Default-initialisation runs the default constructor of a class type and
    leaves a scalar as the storage happened to be: [leftover k] is what
    element [k] holds afterwards, and nothing is assumed about it.  The
    result is never null, also for [n = 0].  The allocator is a collaborator
    outside the header: the free store is unbounded here, so its
    out-of-memory path is not part of this model. *)
Definition new_array (leftover : nat -> T) (n : nat) : M T pointer :=
  fun w => let b := fresh (dom (heap w)) in
           Done (Ptr b 0)
                (MkWorld (objects w) (<[b:=leftover <$> seq 0 n]> (heap w)) (log w)).

(** [new T(args...)]: one object, constructed to [v]. *)
Definition new_object (v : T) : M T pointer :=
  fun w => let b := fresh (dom (heap w)) in
           Done (Ptr b 0) (MkWorld (objects w) (<[b:=[v]]> (heap w)) (log w)).

(** Reading and writing through a reference. Null, dangling and out-of-range
    references are undefined behaviour of the language. *)
Definition load (r : pointer) : M T T :=
  fun w => match r with
           | nullptr => Undefined
           | Ptr b off =>
               match heap w !! b with
               | None => Undefined
               | Some cells =>
                   if bool_decide (0 <= off) then
                     match cells !! Z.to_nat off with
                     | Some v => Done v w
                     | None => Undefined
                     end
                   else Undefined
               end
           end.

Definition store (r : pointer) (v : T) : M T unit :=
  fun w => match r with
           | nullptr => Undefined
           | Ptr b off =>
               match heap w !! b with
               | None => Undefined
               | Some cells =>
                   if bool_decide (0 <= off < Z.of_nat (length cells)) then
                     Done tt (MkWorld (objects w)
                                (<[b:=<[Z.to_nat off:=v]> cells]> (heap w))
                                (log w))
                   else Undefined
               end
           end.
End primitives.

(** ** The standard-library pieces the header is built from *)

Module std.

(** [std::unique_lock<TMutex>]: the mutex it refers to, and whether it owns
    the acquisition. *)
Record unique_lock : Type := MkUniqueLock {
  _M_device : option addr;
  _M_owns : bool
}.

(** Move construction: the new lock takes over device and ownership, the
    source is left with neither.  Returns (new, moved-from). *)
Definition unique_lock_move (o : unique_lock) : unique_lock * unique_lock :=
  (MkUniqueLock (_M_device o) (_M_owns o), MkUniqueLock None false).

Section with_T.
Context {T : Type}.

(** The mutex of the container at [a] is its member [m_mtx]; a reference to
    that mutex is the address [a]. *)
Definition mutex_lock (a : addr) : M T unit :=
  let* c := deref a in
  if locked (m_mtx c) then blocked
  else assign a (MkUniquePtr (MkMutex true) (m_value c));; emit (EvLock a).

Definition mutex_try_lock (a : addr) : M T bool :=
  let* c := deref a in
  if locked (m_mtx c) then ret false
  else assign a (MkUniquePtr (MkMutex true) (m_value c));;
       emit (EvLock a);; ret true.

(** Unlocking a mutex that is not held is undefined. *)
Definition mutex_unlock (a : addr) : M T unit :=
  let* c := deref a in
  if locked (m_mtx c)
  then assign a (MkUniquePtr (MkMutex false) (m_value c));; emit (EvUnlock a)
  else undefined.

Definition unique_lock_ctor (m : addr) : M T unique_lock :=
  mutex_lock m;; ret (MkUniqueLock (Some m) true).

Definition unique_lock_dtor (l : unique_lock) : M T unit :=
  if _M_owns l then
    match _M_device l with
    | Some m => mutex_unlock m
    | None => ret tt
    end
  else ret tt.

(** [std::lock(m1, m2)], which [std::scoped_lock]'s constructor calls: take
    one mutex, try the other, and on failure give the first back and start
    over.  Within one thread a failed attempt can never succeed later, so the
    call does not return. *)
Definition lock (m1 m2 : addr) : M T unit :=
  mutex_lock m1;;
  let* ok := mutex_try_lock m2 in
  if ok : bool then ret tt else blocked.

Definition scoped_lock_ctor (m1 m2 : addr) : M T unit := lock m1 m2.

Definition scoped_lock_dtor (m1 m2 : addr) : M T unit :=
  mutex_unlock m1;; mutex_unlock m2.

(** [std::unique_ptr] operations on the member [m_value] of the container
    at [a]. *)
Definition with_ptr (c : unique_ptr T) (p : pointer) : unique_ptr T :=
  MkUniquePtr (m_mtx c) (MkStdUniquePtr p (_M_deleter (m_value c))).

Definition with_deleter (c : unique_ptr T) (d : deleter T) : unique_ptr T :=
  MkUniquePtr (m_mtx c) (MkStdUniquePtr (_M_ptr (m_value c)) d).

Definition unique_ptr_get (a : addr) : M T pointer :=
  let* c := deref a in ret (_M_ptr (m_value c)).

Definition unique_ptr_release (a : addr) : M T pointer :=
  let* c := deref a in
  assign a (with_ptr c nullptr);;
  ret (_M_ptr (m_value c)).

(** [reset(p)]: store [p], then call the deleter on the old pointer if it
    was not null. *)
Definition unique_ptr_reset (a : addr) (p : pointer) : M T unit :=
  let* c := deref a in
  let old := _M_ptr (m_value c) in
  assign a (with_ptr c p);;
  if bool_decide (old = nullptr) then ret tt
  else invoke (_M_deleter (m_value c)) old.

(** [this = std::move(other)]: [reset(other.release())], then the deleter is
    taken over. *)
Definition unique_ptr_move_assign (this other : addr) : M T unit :=
  let* p := unique_ptr_release other in
  unique_ptr_reset this p;;
  let* o := deref other in
  let* c := deref this in
  assign this (with_deleter c (_M_deleter (m_value o))).

Definition unique_ptr_dtor (a : addr) : M T unit :=
  let* c := deref a in
  let p := _M_ptr (m_value c) in
  (if bool_decide (p = nullptr) then ret tt
   else invoke (_M_deleter (m_value c)) p);;
  let* c' := deref a in
  assign a (with_ptr c' nullptr).

End with_T.
End std.

(** ** ts::unique_ptr *)

Module ts.

(** The member-style guard. *)
Module proxy_locker.

Record t : Type := Mk {
  m_lock : std.unique_lock;
  m_ptr : pointer
}.

(** The defaulted move constructor moves [m_lock] and copies [m_ptr].
    Returns (new, moved-from). *)
Definition move (o : t) : t * t :=
  let '(l, l0) := std.unique_lock_move (m_lock o) in
  (Mk l (m_ptr o), Mk l0 (m_ptr o)).

(** [operator->()] *)
Definition arrow (g : t) : pointer := m_ptr g.

Section with_T.
Context {T : Type}.

Definition ctor (mtx : addr) (ptr : pointer) : M T t :=
  let* l := std.unique_lock_ctor mtx in ret (Mk l ptr).

(** The defaulted destructor destroys [m_lock]. *)
Definition dtor (g : t) : M T unit := std.unique_lock_dtor (m_lock g).

End with_T.
End proxy_locker.

(** The indexed guard. *)
Module proxy_locker_for_subscript.

Record t : Type := Mk {
  m_lock : std.unique_lock;
  m_ptr : pointer
}.

Definition move (o : t) : t * t :=
  let '(l, l0) := std.unique_lock_move (m_lock o) in
  (Mk l (m_ptr o), Mk l0 (m_ptr o)).

(** [operator[](index)]: the reference [m_ptr[index]]. *)
Definition subscript (g : t) (index : Z) : pointer := ptr_add (m_ptr g) index.

Section with_T.
Context {T : Type}.

Definition ctor (mtx : addr) (ptr : pointer) : M T t :=
  let* l := std.unique_lock_ctor mtx in ret (Mk l ptr).

Definition dtor (g : t) : M T unit := std.unique_lock_dtor (m_lock g).

End with_T.
End proxy_locker_for_subscript.

Section with_T.
Context {T : Type}.
(** The value-initialised [TDeleter]. *)
Variable TDeleter_init : deleter T.

Definition lock (this : addr) : M T unit := std.mutex_lock this.

Definition unlock (this : addr) : M T unit := std.mutex_unlock this.

Definition get (this : addr) : M T pointer := std.unique_ptr_get this.

(** [unique_ptr() = default] *)
Definition ctor_default : M T addr :=
  construct (MkUniquePtr (MkMutex false) (MkStdUniquePtr nullptr TDeleter_init)).

(** [unique_ptr(t_element_type* value_ptr)] *)
Definition ctor (value_ptr : pointer) : M T addr :=
  construct (MkUniquePtr (MkMutex false) (MkStdUniquePtr value_ptr TDeleter_init)).

(** [unique_ptr(t_element_type* value_ptr, deleter_type deleter)] *)
Definition ctor_with_deleter (value_ptr : pointer) (d : deleter T) : M T addr :=
  construct (MkUniquePtr (MkMutex false) (MkStdUniquePtr value_ptr d)).

(** [unique_ptr(unique_ptr&& other)]: the members are default-initialised,
    then the body runs. *)
Definition move_ctor (other : addr) : M T addr :=
  let* this := ctor_default in
  std.scoped_lock_ctor this other;;
  std.unique_ptr_move_assign this other;;
  std.scoped_lock_dtor this other;;
  ret this.

(** [operator=(unique_ptr&& other)] *)
Definition move_assign (this other : addr) : M T addr :=
  std.scoped_lock_ctor this other;;
  std.unique_ptr_move_assign this other;;
  std.scoped_lock_dtor this other;;
  ret this.

(** The implicit destructor: [m_value] is destroyed, then [m_mtx], and the
    object is gone. *)
Definition dtor (this : addr) : M T unit :=
  std.unique_ptr_dtor this;;
  destruct_at this.

(** [operator->()]: the argument [m_value.get()] is evaluated, then the guard
    is constructed. *)
Definition operator_arrow (this : addr) : M T proxy_locker.t :=
  let* p := std.unique_ptr_get this in
  proxy_locker.ctor this p.

(** [operator*()] *)
Definition operator_star (this : addr) : M T proxy_locker_for_subscript.t :=
  let* p := std.unique_ptr_get this in
  proxy_locker_for_subscript.ctor this p.

End with_T.

(** [make_unique<T>(args...)], with [v] the object [T(args...)] builds. *)
Definition make_unique {T} (v : T) : M T addr :=
  let* p := new_object v in ctor default_delete p.

(** [make_unique<T[]>(n)], with [leftover] what default-initialisation
    leaves in each element. *)
Definition make_unique_array {T} (leftover : nat -> T) (n : nat) : M T addr :=
  let* p := new_array leftover n in ctor default_delete p.

(** The statements of the header's usage examples for arrays: an assignment
    to, and a read of, element [i] reached through [operator*] and the
    guard's [operator[]].  The guard lives until the end of the full
    expression. *)
Definition subscript_assign {T} (ptr : addr) (i : Z) (v : T) : M T unit :=
  let* g := operator_star ptr in
  store (proxy_locker_for_subscript.subscript g i) v;;
  proxy_locker_for_subscript.dtor g.

Definition subscript_read {T} (ptr : addr) (i : Z) : M T T :=
  let* g := operator_star ptr in
  let* v := load (proxy_locker_for_subscript.subscript g i) in
  proxy_locker_for_subscript.dtor g;;
  ret v.

(** The loop of the array example: element [from + k] is assigned [vs[k]],
    for [k] counting up. *)
Fixpoint assign_all {T} (ptr : addr) (from : Z) (vs : list T) : M T unit :=
  match vs with
  | [] => ret tt
  | v :: vs' => subscript_assign ptr from v;; assign_all ptr (from + 1) vs'
  end.

(** Reading [n] consecutive elements back, starting at [from]. *)
Fixpoint read_all {T} (ptr : addr) (from : Z) (n : nat) : M T (list T) :=
  match n with
  | O => ret []
  | S n' =>
      let* v := subscript_read ptr from in
      let* vs := read_all ptr (from + 1) n' in
      ret (v :: vs)
  end.

(** A member call through the container, as in the header's examples
    ([p_vec->push_back(13)]): the container's [operator->] yields the guard,
    the guard's [operator->] the raw pointer, the member function runs on the
    object, and the guard dies at the end of the full expression.  A member
    function is given by the new state of the object and the result. *)
Definition arrow_call {T R} (ptr : addr) (method : T -> T * R) : M T R :=
  let* g := operator_arrow ptr in
  let* obj := load (proxy_locker.arrow g) in
  store (proxy_locker.arrow g) (fst (method obj));;
  proxy_locker.dtor g;;
  ret (snd (method obj)).

(** The same call under explicit locking, as in the header's example for API
    races: [lock()], the call through [get()], [unlock()]. *)
Definition locked_call {T R} (ptr : addr) (method : T -> T * R) : M T R :=
  lock ptr;;
  let* p := get ptr in
  let* obj := load p in
  store p (fst (method obj));;
  unlock ptr;;
  ret (snd (method obj)).

(** [n] member calls in a row, each one a full expression of its own. *)
Fixpoint arrow_call_n {T} (ptr : addr) (method : T -> T) (n : nat) : M T unit :=
  match n with
  | O => ret tt
  | S n' => arrow_call ptr (fun obj => (method obj, tt));;
            arrow_call_n ptr method n'
  end.

End ts.

(** ** Ownership *)

(** The state a container is left in when it has been moved from. *)
Definition moved_from {T} (c : unique_ptr T) : unique_ptr T :=
  MkUniquePtr (MkMutex false) (MkStdUniquePtr nullptr (_M_deleter (m_value c))).

(** No two live containers manage the same object. *)
Definition exclusive {T} (w : world T) : Prop :=
  forall x y cx cy,
    objects w !! x = Some cx ->
    objects w !! y = Some cy ->
    _M_ptr (m_value cx) = _M_ptr (m_value cy) ->
    _M_ptr (m_value cx) <> nullptr ->
    x = y.

(** ** Two threads *)

(** A move runs as a sequence of atomic calls on the mutexes and on the
    owning pointer.  Between two of them another thread may run.  The calls
    are the ones the sequential definitions are made of; what is new is that
    a failed [try_lock] inside [std::lock] is followed by the retry, which a
    single thread never gets to see succeed. *)
Module threads.

(** Where a thread is in its move. *)
Inductive pc : Type :=
| AtConstruct    (* move construction only: members not yet initialised *)
| AtLock         (* std::lock: about to lock the first mutex *)
| AtTry          (* std::lock: holds the first, about to try the second *)
| AtBackOff      (* std::lock: the try failed, about to give the first back *)
| AtMove         (* holds both, about to move m_value *)
| AtUnlockThis   (* scoped_lock's destructor, first unlock *)
| AtUnlockOther  (* scoped_lock's destructor, second unlock *)
| AtEnd.

(** A thread executing [this = std::move(other)], or constructing [this]
    from [std::move(other)].  [t_swapped] records with which of the two
    mutexes [std::lock] starts its current attempt: [this]'s at first, and
    after each failed attempt the one the attempt failed on. *)
Record thread : Type := MkThread {
  t_this : addr;
  t_other : addr;
  t_swapped : bool;
  t_pc : pc
}.

Definition first (t : thread) : addr :=
  if t_swapped t then t_other t else t_this t.

Definition second (t : thread) : addr :=
  if t_swapped t then t_this t else t_other t.

Definition goto (t : thread) (p : pc) : thread :=
  MkThread (t_this t) (t_other t) (t_swapped t) p.


Definition ended (t : thread) : bool :=
  match t_pc t with
  | AtEnd => true
  | _ => false
  end.

Record system (T : Type) : Type := MkSystem {
  th1 : thread;
  th2 : thread;
  shared : world T
}.
Arguments MkSystem {T} _ _ _.
Arguments th1 {T} _.
Arguments th2 {T} _.
Arguments shared {T} _.

Section with_T.
Context {T : Type}.
(** The value-initialised [TDeleter], for move construction. *)
Variable TDeleter_init : deleter T.

(** One atomic step of a thread, or [None] when it cannot move: it has
    ended, it waits for a mutex, or its next call is undefined. *)
Definition thread_step (t : thread) (w : world T) : option (thread * world T) :=
  match t_pc t with
  | AtConstruct =>
      match ts.ctor_default TDeleter_init w with
      | Done this w' => Some (MkThread this (t_other t) false AtLock, w')
      | _ => None
      end
  | AtLock =>
      match std.mutex_lock (first t) w with
      | Done _ w' => Some (goto t AtTry, w')
      | _ => None
      end
  | AtTry =>
      match std.mutex_try_lock (second t) w with
      | Done true w' => Some (goto t AtMove, w')
      | Done false w' => Some (goto t AtBackOff, w')
      | _ => None
      end
  | AtBackOff =>
      match std.mutex_unlock (first t) w with
      | Done _ w' =>
          Some (MkThread (t_this t) (t_other t) (negb (t_swapped t)) AtLock, w')
      | _ => None
      end
  | AtMove =>
      match std.unique_ptr_move_assign (t_this t) (t_other t) w with
      | Done _ w' => Some (goto t AtUnlockThis, w')
      | _ => None
      end
  | AtUnlockThis =>
      match std.mutex_unlock (t_this t) w with
      | Done _ w' => Some (goto t AtUnlockOther, w')
      | _ => None
      end
  | AtUnlockOther =>
      match std.mutex_unlock (t_other t) w with
      | Done _ w' => Some (goto t AtEnd, w')
      | _ => None
      end
  | AtEnd => None
  end.

(** What the moves would be with two blocking acquisitions in a row in place
    of [std::lock]: the second mutex is waited for while the first is held. *)
Definition sequential_step (t : thread) (w : world T) : option (thread * world T) :=
  match t_pc t with
  | AtTry =>
      match std.mutex_lock (second t) w with
      | Done _ w' => Some (goto t AtMove, w')
      | _ => None
      end
  | _ => thread_step t w
  end.

Section interleaving.
Variable step : thread -> world T -> option (thread * world T).

(** The scheduler picks either thread. *)
Inductive sys_step : system T -> system T -> Prop :=
| step_th1 t1 t2 w t1' w' :
    step t1 w = Some (t1', w') ->
    sys_step (MkSystem t1 t2 w) (MkSystem t1' t2 w')
| step_th2 t1 t2 w t2' w' :
    step t2 w = Some (t2', w') ->
    sys_step (MkSystem t1 t2 w) (MkSystem t1 t2' w').

Definition can_step (t : thread) (w : world T) : bool :=
  match step t w with
  | Some _ => true
  | None => false
  end.

(** Neither thread can move, and they have not both ended. *)
Definition deadlocked (s : system T) : bool :=
  negb (can_step (th1 s) (shared s)) &&
  negb (can_step (th2 s) (shared s)) &&
  negb (ended (th1 s) && ended (th2 s)).

End interleaving.





(** A thread running with nobody else, for at most [n] steps. *)
Fixpoint run_alone (n : nat) (t : thread) (w : world T) : thread * world T :=
  match n with
  | O => (t, w)
  | S n' =>
      match thread_step t w with
      | Some (t', w') => run_alone n' t' w'
      | None => (t, w)
      end
  end.



End with_T.
End threads.

(** ** Worlds around one guarded access *)

(** The world while a guard on the unlocked container [c] at [a] is alive,
    and the world once that guard has released the lock. *)
Definition acquired {T} (a : addr) (c : unique_ptr T) (w : world T) : world T :=
  MkWorld (<[a:=MkUniquePtr (MkMutex true) (m_value c)]> (objects w))
          (heap w) (log w ++ [EvLock a]).

Definition released {T} (a : addr) (w : world T) : world T :=
  MkWorld (objects w) (heap w) (log w ++ [EvLock a; EvUnlock a]).

(** ** Concrete worlds *)

Definition w0 : world Z := MkWorld ∅ ∅ [].

(** An unlocked container of integers with the default deleter. *)
Definition holding (p : pointer) : unique_ptr Z :=
  MkUniquePtr (MkMutex false) (MkStdUniquePtr p default_delete).

(** Two live containers, at addresses 0 and 1, each owning one integer. *)
Definition w_two : world Z :=
  MkWorld {[ 0%nat := holding (Ptr 0 0); 1%nat := holding (Ptr 1 0) ]}
          {[ 0%nat := [7]; 1%nat := [8] ]}
          [].

(** A container at address 0 owning one integer, and an empty one at 1. *)
Definition w_one_empty : world Z :=
  MkWorld {[ 0%nat := holding (Ptr 0 0); 1%nat := holding nullptr ]}
          {[ 0%nat := [7] ]}
          [].

(** The container at address 0 of [w_two] with its lock held. *)
Definition w_held : world Z :=
  MkWorld {[ 0%nat := MkUniquePtr (MkMutex true)
                        (MkStdUniquePtr (Ptr 0 0) default_delete);
             1%nat := holding (Ptr 1 0) ]}
          {[ 0%nat := [7]; 1%nat := [8] ]}
          [].

(** The two threads of [B = std::move(A)] against [A = std::move(B)], for the
    containers 0 and 1 of [w_two]. *)
Definition t_into_1 : threads.thread := threads.MkThread 1%nat 0%nat false threads.AtLock.
Definition t_into_0 : threads.thread := threads.MkThread 0%nat 1%nat false threads.AtLock.

(** Each thread has taken the mutex of its own container. *)
Definition w_crossed : world Z :=
  MkWorld {[ 0%nat := MkUniquePtr (MkMutex true) (MkStdUniquePtr (Ptr 0 0) default_delete);
             1%nat := MkUniquePtr (MkMutex true) (MkStdUniquePtr (Ptr 1 0) default_delete) ]}
          {[ 0%nat := [7]; 1%nat := [8] ]}
          [EvLock 1%nat; EvLock 0%nat].

Definition s_crossed : threads.system Z :=
  threads.MkSystem (threads.goto t_into_1 threads.AtTry)
                   (threads.goto t_into_0 threads.AtTry) w_crossed.

(** One live container over a three-element array. *)
Definition w_arr : world Z :=
  MkWorld {[ 0%nat := holding (Ptr 0 0) ]} {[ 0%nat := [10; 20; 30] ]} [].

(** ** Executing the header's own usage example *)

Example run_make_array :
  (let* a := ts.make_unique_array (fun k => 1000 + Z.of_nat k) 3 in
   ts.assign_all a 0 [10; 20; 30];;
   ts.read_all a 0 3) w0
  = Done [10; 20; 30]
      (MkWorld {[ 0%nat := holding (Ptr 0 0) ]}
               {[ 0%nat := [10; 20; 30] ]}
               (concat (replicate 6 [EvLock 0%nat; EvUnlock 0%nat]))).
Proof. vm_compute. reflexivity. Qed.

(** Elements that were never assigned hold what the allocation left there. *)
Example read_before_assign_sees_leftovers :
  (let* a := ts.make_unique_array (fun k => 1000 + Z.of_nat k) 3 in
   ts.read_all a 0 3) w0
  = Done [1000; 1001; 1002]
      (MkWorld {[ 0%nat := holding (Ptr 0 0) ]}
               {[ 0%nat := [1000; 1001; 1002] ]}
               (concat (replicate 3 [EvLock 0%nat; EvUnlock 0%nat]))).
Proof. vm_compute. reflexivity. Qed.

(** A container moved onto itself asks for its own mutex twice: the
    acquisition of both never completes. *)
Example self_move_assign_blocks : ts.move_assign 0%nat 0%nat w_two = Blocked.
Proof. reflexivity. Qed.

(** Locking twice in a row, the documented misuse of a non-recursive mutex. *)
Example nested_lock_blocks : (ts.lock 0%nat;; ts.lock 0%nat) w_two = Blocked.
Proof. reflexivity. Qed.

(** A move out of a container whose lock is held waits for it. *)
Example move_from_locked_blocks :
  (ts.lock 0%nat;; ts.move_assign 1%nat 0%nat) w_two = Blocked.
Proof. reflexivity. Qed.

(** Construct-single followed by destruction: one cleanup, and the free
    store is back to what it was. *)
Example make_unique_then_dtor :
  (let* a := ts.make_unique 5 in ts.dtor a) w0
  = Done tt (MkWorld ∅ ∅ [EvCleanup default_delete (Ptr 0 0)]).
Proof. vm_compute. reflexivity. Qed.

(** A custom deleter is the one that is called. *)
Example custom_deleter_is_called :
  (let* a := ts.ctor_with_deleter (Ptr 0 0) (fun _ h => h) in ts.dtor a) w0
  = Done tt (MkWorld ∅ ∅ [EvCleanup (fun _ h => h) (Ptr 0 0)]).
Proof. vm_compute. reflexivity. Qed.

(** ** Symbolic execution *)

Ltac unfold_ops :=
  unfold ts.move_assign, ts.move_ctor, ts.ctor_default, ts.ctor,
    ts.ctor_with_deleter, ts.get, ts.lock, ts.unlock, ts.dtor,
    ts.operator_arrow, ts.operator_star,
    ts.proxy_locker.ctor, ts.proxy_locker.dtor,
    ts.proxy_locker_for_subscript.ctor, ts.proxy_locker_for_subscript.dtor,
    std.scoped_lock_ctor, std.scoped_lock_dtor, std.lock,
    std.unique_lock_ctor, std.unique_lock_dtor,
    std.unique_ptr_move_assign, std.unique_ptr_reset, std.unique_ptr_release,
    std.unique_ptr_get, std.unique_ptr_dtor,
    std.mutex_lock, std.mutex_try_lock, std.mutex_unlock,
    std.with_ptr, std.with_deleter,
    invoke, construct, destruct_at, emit, assign, deref, blocked, undefined,
    bind, ret in *.

Ltac sim_step :=
  first
    [ progress cbn [objects heap log m_mtx m_value locked _M_ptr _M_deleter
                    std._M_device std._M_owns
                    ts.proxy_locker.m_lock ts.proxy_locker.m_ptr
                    ts.proxy_locker_for_subscript.m_lock
                    ts.proxy_locker_for_subscript.m_ptr fst snd]
    | rewrite lookup_insert_eq
    | rewrite lookup_insert_ne by congruence
    | rewrite lookup_delete_eq
    | rewrite bool_decide_eq_true_2 by congruence
    | rewrite bool_decide_eq_false_2 by congruence
    | match goal with H : _ !! _ = _ |- _ => rewrite H end
    | match goal with H : locked _ = _ |- _ => rewrite H end ].

Ltac sim := unfold_ops; repeat sim_step.

Section ownership.
Context {T : Type}.
Implicit Types (w : world T) (c : unique_ptr T) (D : deleter T).

(** The address a new container is placed at is not the address of a live
    one. *)
Lemma fresh_not_live w a c :
  objects w !! a = Some c -> fresh (dom (objects w)) <> a.
Proof.
  intros Ha Heq. apply (is_fresh (dom (objects w))).
  rewrite Heq. apply elem_of_dom. by exists c.
Qed.

Lemma cleanups_app p (l1 l2 : list (event T)) :
  cleanups p (l1 ++ l2) = (cleanups p l1 + cleanups p l2)%nat.
Proof. unfold cleanups. by rewrite List.filter_app, length_app. Qed.

Lemma releases_app m (l1 l2 : list (event T)) :
  releases m (l1 ++ l2) = (releases m l1 + releases m l2)%nat.
Proof. unfold releases. by rewrite List.filter_app, length_app. Qed.

Lemma acquisitions_app m (l1 l2 : list (event T)) :
  acquisitions m (l1 ++ l2) = (acquisitions m l1 + acquisitions m l2)%nat.
Proof. unfold acquisitions. by rewrite List.filter_app, length_app. Qed.

(** Reading the stored pointer of a live container. *)
Lemma get_of_live w a c :
  objects w !! a = Some c ->
  ts.get a w = Done (_M_ptr (m_value c)) w.
Proof. intros Ha. sim. reflexivity. Qed.

(** C1. When B is move-constructed from a live, unlocked container A, or a
    distinct live, unlocked container B is move-assigned from A, the
    operation completes, and afterwards [get()] on A returns null and
    [get()] on B returns the pointer A held before the move. *)
Theorem move_transfers_pointer D w A cA :
  objects w !! A = Some cA ->
  locked (m_mtx cA) = false ->
  (exists B w',
      ts.move_ctor D A w = Done B w' /\ B <> A /\
      ts.get A w' = Done nullptr w' /\
      ts.get B w' = Done (_M_ptr (m_value cA)) w')
  /\
  (forall B cB,
      objects w !! B = Some cB ->
      locked (m_mtx cB) = false ->
      B <> A ->
      exists w',
        ts.move_assign B A w = Done B w' /\
        ts.get A w' = Done nullptr w' /\
        ts.get B w' = Done (_M_ptr (m_value cA)) w').
Proof.
  intros HA HlA. split.
  - pose proof (fresh_not_live w A cA HA) as Hfresh.
    eexists _, _. split; [| split; [exact Hfresh |]].
    + sim. reflexivity.
    + split; sim; reflexivity.
  - intros B cB HB HlB Hne.
    destruct (decide (_M_ptr (m_value cB) = nullptr)) as [Hq | Hq].
    + eexists. split; [sim; reflexivity |]. split; sim; reflexivity.
    + eexists. split; [sim; reflexivity |]. split; sim; reflexivity.
Qed.

Lemma cleanups_snoc p d (l : list (event T)) :
  cleanups p (l ++ [EvCleanup d p]) = S (cleanups p l).
Proof.
  rewrite cleanups_app. unfold cleanups at 2. cbn.
  rewrite bool_decide_eq_true_2 by reflexivity. cbn. lia.
Qed.

Lemma cleanups_lock_events p (l : list (event T)) m :
  cleanups p (l ++ [EvLock m]) = cleanups p l /\
  cleanups p (l ++ [EvUnlock m]) = cleanups p l.
Proof. rewrite !cleanups_app. cbn. lia. Qed.

(** C2. Constructing a container from a raw pointer P (in particular from
    any valid non-null one), taking the lock explicitly and calling [get()]
    returns exactly P, and the free store P points into is untouched. *)
Theorem ctor_lock_get_returns_pointer D w P :
  exists a w',
    (let* a := ts.ctor D P in
     ts.lock a;;
     let* p := ts.get a in
     ts.unlock a;;
     ret (a, p)) w = Done (a, P) w'
    /\ ts.get a w' = Done P w'
    /\ heap w' = heap w.
Proof.
  eexists _, _. split; [sim; reflexivity |].
  split; sim; reflexivity.
Qed.

(** C5. Constructing a container from a null raw pointer completes without
    any error and yields an empty container: [get()] returns null.  The
    defaulted default constructor yields the very same state. *)
Theorem null_ctor_is_empty D w :
  ts.ctor D nullptr w = ts.ctor_default D w /\
  exists a w',
    ts.ctor D nullptr w = Done a w' /\
    objects w' !! a = Some (MkUniquePtr (MkMutex false) (MkStdUniquePtr nullptr D)) /\
    ts.get a w' = Done nullptr w' /\
    heap w' = heap w /\ log w' = log w.
Proof.
  split; [reflexivity |].
  eexists _, _. split; [sim; reflexivity |].
  split; [sim; reflexivity |].
  split; [sim; reflexivity |].
  split; reflexivity.
Qed.

(** C8. On a live container, whatever the state of its lock, [get()] returns
    the raw managed pointer and leaves the whole world as it was: managed
    pointer, cleanup action and lock state are unchanged, and nothing is
    acquired or released. *)
Theorem get_changes_nothing w a c :
  objects w !! a = Some c ->
  ts.get a w = Done (_M_ptr (m_value c)) w.
Proof. apply get_of_live. Qed.

(** C4. Destroying a live container completes; if the managed pointer is not
    null the cleanup action is invoked on it exactly once, and if it is null
    no cleanup action is invoked at all. *)
Theorem dtor_cleans_up_once w a c :
  objects w !! a = Some c ->
  exists w',
    ts.dtor a w = Done tt w' /\
    objects w' !! a = None /\
    (_M_ptr (m_value c) <> nullptr ->
       log w' = log w ++ [EvCleanup (_M_deleter (m_value c)) (_M_ptr (m_value c))] /\
       cleanups (_M_ptr (m_value c)) (log w') = S (cleanups (_M_ptr (m_value c)) (log w)) /\
       heap w' = _M_deleter (m_value c) (_M_ptr (m_value c)) (heap w)) /\
    (_M_ptr (m_value c) = nullptr ->
       log w' = log w /\ heap w' = heap w).
Proof.
  intros Ha.
  destruct (decide (_M_ptr (m_value c) = nullptr)) as [Hp | Hp].
  - eexists. split; [sim; reflexivity |].
    split; [sim; reflexivity |].
    split; [intros; contradiction |].
    intros _. split; reflexivity.
  - eexists. split; [sim; reflexivity |].
    split; [sim; reflexivity |].
    split; [| intros; contradiction].
    intros _. cbn [log heap].
    split; [reflexivity |]. split; [apply cleanups_snoc | reflexivity].
Qed.

(** C10. Move-assigning into a destination B that already manages an object:
    the assignment completes, B's old object has B's old cleanup action
    invoked on it exactly once, while both locks are held, and B ends up
    with A's pointer and cleanup action, A being left empty. *)
Theorem move_assign_cleans_destination w A B cA cB :
  objects w !! A = Some cA ->
  objects w !! B = Some cB ->
  B <> A ->
  locked (m_mtx cA) = false ->
  locked (m_mtx cB) = false ->
  _M_ptr (m_value cB) <> nullptr ->
  exists w',
    ts.move_assign B A w = Done B w' /\
    log w' = log w ++ [EvLock B; EvLock A;
                       EvCleanup (_M_deleter (m_value cB)) (_M_ptr (m_value cB));
                       EvUnlock B; EvUnlock A] /\
    cleanups (_M_ptr (m_value cB)) (log w')
      = S (cleanups (_M_ptr (m_value cB)) (log w)) /\
    heap w' = _M_deleter (m_value cB) (_M_ptr (m_value cB)) (heap w) /\
    objects w' !! B = Some (MkUniquePtr (MkMutex false) (m_value cA)) /\
    objects w' !! A
      = Some (MkUniquePtr (MkMutex false)
                (MkStdUniquePtr nullptr (_M_deleter (m_value cA)))).
Proof.
  intros HA HB Hne HlA HlB Hq.
  eexists. split; [sim; reflexivity |].
  cbn [log heap objects].
  split; [by repeat rewrite <- app_assoc |].
  split.
  { repeat rewrite cleanups_app. cbn.
    rewrite bool_decide_eq_true_2 by reflexivity. cbn. lia. }
  split; [reflexivity |].
  split; sim; [| reflexivity].
  by destruct cA as [mA [pA dA]].
Qed.

End ownership.

Section references.
Context {T : Type}.
Implicit Types (w : world T) (cells : list T).

Lemma load_in_bounds w b off cells v :
  heap w !! b = Some cells ->
  0 <= off ->
  cells !! Z.to_nat off = Some v ->
  load (Ptr b off) w = Done v w.
Proof.
  intros Hb Hge Hv. unfold load. rewrite Hb, Hv.
  by rewrite bool_decide_eq_true_2.
Qed.

Lemma store_in_bounds w b off cells v :
  heap w !! b = Some cells ->
  0 <= off < Z.of_nat (length cells) ->
  store (Ptr b off) v w
  = Done tt (MkWorld (objects w) (<[b:=<[Z.to_nat off:=v]> cells]> (heap w)) (log w)).
Proof.
  intros Hb Hin. unfold store. rewrite Hb.
  by rewrite bool_decide_eq_true_2.
Qed.

Lemma load_out_of_range w b off cells :
  heap w !! b = Some cells ->
  ~ 0 <= off < Z.of_nat (length cells) ->
  load (Ptr b off) w = Undefined.
Proof.
  intros Hb Hout. unfold load. rewrite Hb.
  case_bool_decide as Hge; [| reflexivity].
  by rewrite (lookup_ge_None_2 cells (Z.to_nat off)) by lia.
Qed.

Lemma store_out_of_range w b off cells v :
  heap w !! b = Some cells ->
  ~ 0 <= off < Z.of_nat (length cells) ->
  store (Ptr b off) v w = Undefined.
Proof.
  intros Hb Hout. unfold store. rewrite Hb.
  by rewrite bool_decide_eq_false_2.
Qed.

End references.

Section guards.
Context {T : Type}.
Implicit Types (w : world T) (c : unique_ptr T).

(** Locking and then unlocking the mutex of an unlocked container restores
    the container. *)
Lemma relock_restores w a c :
  objects w !! a = Some c ->
  locked (m_mtx c) = false ->
  <[a:=MkUniquePtr (MkMutex false) (m_value c)]>
    (<[a:=MkUniquePtr (MkMutex true) (m_value c)]> (objects w)) = objects w.
Proof.
  intros Ha Hl. rewrite insert_insert_eq. apply insert_id.
  destruct c as [[l] v]. cbn in Hl. by subst l.
Qed.

Lemma unlock_acquired w a c :
  objects w !! a = Some c ->
  locked (m_mtx c) = false ->
  std.mutex_unlock a (acquired a c w) = Done tt (released a w).
Proof.
  intros Ha Hl. unfold acquired, released. sim.
  rewrite relock_restores by assumption.
  by rewrite <- app_assoc.
Qed.

(** C7. Both access guards acquire the lock when they are constructed and
    release it exactly once.  Starting from a live, unlocked container:
    the access operator yields a guard bound to the managed pointer with the
    lock taken; destroying that guard releases the lock; after a move
    construction, destroying the moved-from guard changes nothing (before or
    after the new guard is destroyed) and destroying the new guard releases
    the lock.  In all, one acquisition and one release are recorded. *)
Theorem guards_acquire_and_release_once w a c :
  objects w !! a = Some c ->
  locked (m_mtx c) = false ->
  (exists g,
      ts.operator_arrow a w = Done g (acquired a c w) /\
      ts.proxy_locker.arrow g = _M_ptr (m_value c) /\
      ts.proxy_locker.dtor g (acquired a c w) = Done tt (released a w) /\
      ts.proxy_locker.arrow (fst (ts.proxy_locker.move g)) = _M_ptr (m_value c) /\
      ts.proxy_locker.dtor (snd (ts.proxy_locker.move g)) (acquired a c w)
        = Done tt (acquired a c w) /\
      ts.proxy_locker.dtor (fst (ts.proxy_locker.move g)) (acquired a c w)
        = Done tt (released a w) /\
      ts.proxy_locker.dtor (snd (ts.proxy_locker.move g)) (released a w)
        = Done tt (released a w))
  /\
  (exists g,
      ts.operator_star a w = Done g (acquired a c w) /\
      ts.proxy_locker_for_subscript.m_ptr g = _M_ptr (m_value c) /\
      ts.proxy_locker_for_subscript.dtor g (acquired a c w) = Done tt (released a w) /\
      ts.proxy_locker_for_subscript.m_ptr (fst (ts.proxy_locker_for_subscript.move g))
        = _M_ptr (m_value c) /\
      ts.proxy_locker_for_subscript.dtor
        (snd (ts.proxy_locker_for_subscript.move g)) (acquired a c w)
        = Done tt (acquired a c w) /\
      ts.proxy_locker_for_subscript.dtor
        (fst (ts.proxy_locker_for_subscript.move g)) (acquired a c w)
        = Done tt (released a w) /\
      ts.proxy_locker_for_subscript.dtor
        (snd (ts.proxy_locker_for_subscript.move g)) (released a w)
        = Done tt (released a w))
  /\
  objects (acquired a c w) !! a = Some (MkUniquePtr (MkMutex true) (m_value c)) /\
  objects (released a w) !! a = Some c /\
  acquisitions a (log (released a w)) = S (acquisitions a (log w)) /\
  releases a (log (released a w)) = S (releases a (log w)).
Proof.
  intros Ha Hl.
  pose proof (unlock_acquired w a c Ha Hl) as Hrel.
  split; [| split].
  - eexists. split; [unfold acquired; sim; reflexivity |].
    cbn. repeat split; try reflexivity; exact Hrel.
  - eexists. split; [unfold acquired; sim; reflexivity |].
    cbn. repeat split; try reflexivity; exact Hrel.
  - split; [unfold acquired; sim; reflexivity |].
    split; [exact Ha |].
    unfold released. cbn [log].
    rewrite acquisitions_app, releases_app. cbn.
    rewrite !bool_decide_eq_true_2 by reflexivity. cbn. lia.
Qed.

(** C9. The indexed guard's subscript yields the reference [m_ptr + i]
    whatever the index is and without consulting the array: nothing is
    checked.  For a guard over a live array, an access through the reference
    is well defined when the index is in bounds, and it is undefined, not
    reported, when it is out of range; through a guard over a null pointer
    every access is undefined. *)
Theorem subscript_is_unchecked (g : ts.proxy_locker_for_subscript.t) (i : Z) w :
  ts.proxy_locker_for_subscript.subscript g i
    = ptr_add (ts.proxy_locker_for_subscript.m_ptr g) i /\
  (forall b off cells,
      ts.proxy_locker_for_subscript.m_ptr g = Ptr b off ->
      heap w !! b = Some cells ->
      ts.proxy_locker_for_subscript.subscript g i = Ptr b (off + i) /\
      (0 <= off + i < Z.of_nat (length cells) ->
         exists v,
           cells !! Z.to_nat (off + i) = Some v /\
           load (ts.proxy_locker_for_subscript.subscript g i) w = Done v w /\
           forall v',
             store (ts.proxy_locker_for_subscript.subscript g i) v' w
             = Done tt (MkWorld (objects w)
                          (<[b:=<[Z.to_nat (off + i):=v']> cells]> (heap w))
                          (log w))) /\
      (~ 0 <= off + i < Z.of_nat (length cells) ->
         load (ts.proxy_locker_for_subscript.subscript g i) w = Undefined /\
         forall v',
           store (ts.proxy_locker_for_subscript.subscript g i) v' w = Undefined)) /\
  (ts.proxy_locker_for_subscript.m_ptr g = nullptr ->
     load (ts.proxy_locker_for_subscript.subscript g i) w = Undefined /\
     forall v',
       store (ts.proxy_locker_for_subscript.subscript g i) v' w = Undefined).
Proof.
  unfold ts.proxy_locker_for_subscript.subscript.
  split; [reflexivity |]. split.
  - intros b off cells Hg Hb. rewrite Hg. cbn [ptr_add].
    split; [reflexivity |]. split.
    + intros Hin.
      destruct (lookup_lt_is_Some_2 cells (Z.to_nat (off + i))) as [v Hv]; [lia |].
      exists v. split; [exact Hv |]. split.
      * apply (load_in_bounds w b (off + i) cells v Hb); [lia | exact Hv].
      * intros v'. by apply store_in_bounds.
    + intros Hout. split.
      * by apply (load_out_of_range w b (off + i) cells).
      * intros v'. by apply (store_out_of_range w b (off + i) cells).
  - intros Hg. rewrite Hg. split; [reflexivity | intros; reflexivity].
Qed.

End guards.

Section arrays.
Context {T : Type}.
Implicit Types (w : world T) (c : unique_ptr T) (cells vs : list T).

(** The log of [n] guarded accesses to the container at [a]. *)
Lemma log_accesses_S (l : list (event T)) a n :
  (l ++ [EvLock a; EvUnlock a]) ++ concat (replicate n [EvLock a; EvUnlock a])
  = l ++ concat (replicate (S n) [EvLock a; EvUnlock a]).
Proof. by rewrite <- app_assoc. Qed.

(** One guarded assignment to element [k] of the array owned by the
    container at [a]. *)
Lemma subscript_assign_in_bounds w a c b cells (k : nat) v :
  objects w !! a = Some c ->
  locked (m_mtx c) = false ->
  _M_ptr (m_value c) = Ptr b 0 ->
  heap w !! b = Some cells ->
  (k < length cells)%nat ->
  ts.subscript_assign a (Z.of_nat k) v w
  = Done tt (MkWorld (objects w) (<[b:=<[k:=v]> cells]> (heap w))
               (log w ++ [EvLock a; EvUnlock a])).
Proof.
  intros Ha Hl Hp Hb Hk.
  unfold ts.subscript_assign, ts.proxy_locker_for_subscript.subscript.
  sim. rewrite Hp. cbn [ptr_add].
  rewrite (store_in_bounds _ b (0 + Z.of_nat k) cells) by (cbn [heap]; first [assumption | lia]).
  sim. rewrite relock_restores by assumption.
  rewrite Z.add_0_l, Nat2Z.id. by rewrite <- app_assoc.
Qed.

(** One guarded read of element [k]. *)
Lemma subscript_read_in_bounds w a c b cells (k : nat) v :
  objects w !! a = Some c ->
  locked (m_mtx c) = false ->
  _M_ptr (m_value c) = Ptr b 0 ->
  heap w !! b = Some cells ->
  cells !! k = Some v ->
  ts.subscript_read a (Z.of_nat k) w
  = Done v (MkWorld (objects w) (heap w) (log w ++ [EvLock a; EvUnlock a])).
Proof.
  intros Ha Hl Hp Hb Hv.
  unfold ts.subscript_read, ts.proxy_locker_for_subscript.subscript.
  sim. rewrite Hp. cbn [ptr_add].
  rewrite (load_in_bounds _ b (0 + Z.of_nat k) cells v);
    [| done | lia | by rewrite Z.add_0_l, Nat2Z.id].
  sim. rewrite relock_restores by assumption.
  by rewrite <- app_assoc.
Qed.

(** Outside the array nothing is defined, for reads and for assignments. *)
Lemma subscript_out_of_range w a c b cells (i : Z) :
  objects w !! a = Some c ->
  locked (m_mtx c) = false ->
  _M_ptr (m_value c) = Ptr b 0 ->
  heap w !! b = Some cells ->
  ~ 0 <= i < Z.of_nat (length cells) ->
  ts.subscript_read a i w = Undefined /\
  forall v, ts.subscript_assign a i v w = Undefined.
Proof.
  intros Ha Hl Hp Hb Hout.
  unfold ts.subscript_read, ts.subscript_assign,
    ts.proxy_locker_for_subscript.subscript.
  split; [| intros v]; sim; rewrite Hp; cbn [ptr_add].
  - by rewrite (load_out_of_range _ b (0 + i) cells) by (cbn [heap]; first [assumption | lia]).
  - by rewrite (store_out_of_range _ b (0 + i) cells) by (cbn [heap]; first [assumption | lia]).
Qed.

(** The assignment loop overwrites the elements after [pre] with [vs]. *)
Lemma assign_all_spec a c b vs :
  forall w pre old,
    objects w !! a = Some c ->
    locked (m_mtx c) = false ->
    _M_ptr (m_value c) = Ptr b 0 ->
    heap w !! b = Some (pre ++ old) ->
    length old = length vs ->
    ts.assign_all a (Z.of_nat (length pre)) vs w
    = Done tt (MkWorld (objects w) (<[b:=pre ++ vs]> (heap w))
                 (log w ++ concat (replicate (length vs) [EvLock a; EvUnlock a]))).
Proof.
  induction vs as [| v vs IH]; intros w pre old Ha Hl Hp Hb Hlen.
  - destruct old; [| discriminate]. cbn.
    rewrite insert_id by exact Hb. rewrite app_nil_r.
    by destruct w.
  - destruct old as [| x old]; [discriminate |].
    cbn [ts.assign_all]. unfold bind at 1.
    rewrite (subscript_assign_in_bounds w a c b (pre ++ x :: old) (length pre) v)
      by (try done; rewrite length_app; cbn; lia).
    rewrite insert_app_r_alt by lia. rewrite Nat.sub_diag. cbn [insert list_insert].
    replace (Z.of_nat (length pre) + 1) with (Z.of_nat (length (pre ++ [v])))
      by (rewrite length_app; cbn; lia).
    rewrite (IH _ (pre ++ [v]) old); cbn [objects heap log]; try done.
    + rewrite insert_insert_eq, log_accesses_S.
      by rewrite <- app_assoc.
    + rewrite lookup_insert_eq. by rewrite <- app_assoc.
    + cbn in Hlen. lia.
Qed.

(** The read loop returns the [n] elements from position [k] on. *)
Lemma read_all_spec a c b cells n :
  forall w (k : nat),
    objects w !! a = Some c ->
    locked (m_mtx c) = false ->
    _M_ptr (m_value c) = Ptr b 0 ->
    heap w !! b = Some cells ->
    (k + n <= length cells)%nat ->
    ts.read_all a (Z.of_nat k) n w
    = Done (take n (drop k cells))
        (MkWorld (objects w) (heap w)
           (log w ++ concat (replicate n [EvLock a; EvUnlock a]))).
Proof.
  induction n as [| n IH]; intros w k Ha Hl Hp Hb Hlen.
  - cbn. rewrite app_nil_r. by destruct w.
  - destruct (lookup_lt_is_Some_2 cells k) as [v Hv]; [lia |].
    cbn [ts.read_all]. unfold bind at 1.
    rewrite (subscript_read_in_bounds w a c b cells k v) by done.
    replace (Z.of_nat k + 1) with (Z.of_nat (S k)) by lia.
    unfold bind at 1.
    rewrite (IH _ (S k)); cbn [objects heap log]; try done; [| lia].
    unfold ret. rewrite log_accesses_S.
    by rewrite (drop_S cells v k Hv).
Qed.

(** C6. [make_unique<T[]>(n)] completes for every [n] and yields a container
    whose managed pointer is not null and points to an array of exactly [n]
    elements, each holding what default-initialisation left in it.
    Assigning [n] values to positions [0 .. n-1] through the indexed guard
    and reading the positions back gives exactly those values, whatever the
    elements held before.  No index outside [0 .. n-1] can be accessed; for
    [n = 0] that is every index. *)
Theorem make_unique_array_roundtrip (leftover : nat -> T) (n : nat) vs w :
  length vs = n ->
  exists a b cells w1,
    ts.make_unique_array leftover n w = Done a w1 /\
    ts.get a w1 = Done (Ptr b 0) w1 /\
    Ptr b 0 <> nullptr /\
    heap w1 !! b = Some cells /\
    length cells = n /\
    (forall k, (k < n)%nat -> cells !! k = Some (leftover k)) /\
    (exists w2 w3,
        ts.assign_all a 0 vs w1 = Done tt w2 /\
        ts.read_all a 0 n w2 = Done vs w3) /\
    (forall i, ~ 0 <= i < Z.of_nat n ->
        ts.subscript_read a i w1 = Undefined /\
        forall v, ts.subscript_assign a i v w1 = Undefined).
Proof.
  intros Hlen.
  set (c := MkUniquePtr (MkMutex false)
              (MkStdUniquePtr (Ptr (fresh (dom (heap w))) 0) (@default_delete T))).
  assert (Hcells : length (leftover <$> seq 0 n) = n)
    by (by rewrite length_fmap, length_seq).
  eexists _, (fresh (dom (heap w))), (leftover <$> seq 0 n), _.
  split; [unfold ts.make_unique_array, new_array; sim; reflexivity |].
  fold c.
  set (w1 := MkWorld _ _ _).
  assert (Ha : objects w1 !! fresh (dom (objects w)) = Some c)
    by (subst w1; cbn [objects]; apply lookup_insert_eq).
  assert (Hb : heap w1 !! fresh (dom (heap w)) = Some (leftover <$> seq 0 n))
    by (subst w1; cbn [heap]; apply lookup_insert_eq).
  split; [by rewrite (get_of_live w1 _ c Ha) |].
  split; [discriminate |].
  split; [exact Hb |].
  split; [exact Hcells |].
  split.
  { intros k Hk. rewrite list_lookup_fmap, lookup_seq_lt by exact Hk.
    reflexivity. }
  split.
  - eexists _, _. split.
    + apply (assign_all_spec _ c (fresh (dom (heap w))) vs w1 []
               (leftover <$> seq 0 n));
        try done.
      lia.
    + cbn [app].
      rewrite (read_all_spec _ c (fresh (dom (heap w))) vs n _ 0%nat);
        cbn [objects heap log]; try done.
      * rewrite drop_0, take_ge by lia. reflexivity.
      * apply lookup_insert_eq.
      * lia.
  - intros i Hout.
    apply (subscript_out_of_range w1 _ c (fresh (dom (heap w)))
             (leftover <$> seq 0 n));
      try done.
    by rewrite Hcells.
Qed.

End arrays.

Lemma move_transfers_pointer_witness :
  (exists B w',
      ts.move_ctor default_delete 0%nat w_two = Done B w' /\ B <> 0%nat /\
      ts.get 0%nat w' = Done nullptr w' /\
      ts.get B w' = Done (Ptr 0 0) w')
  /\
  (exists w',
      ts.move_assign 1%nat 0%nat w_two = Done 1%nat w' /\
      ts.get 0%nat w' = Done nullptr w' /\
      ts.get 1%nat w' = Done (Ptr 0 0) w').
Proof.
  destruct (move_transfers_pointer default_delete w_two 0%nat (holding (Ptr 0 0))
              eq_refl eq_refl) as [Hc Ha].
  split; [exact Hc |].
  apply (Ha 1%nat (holding (Ptr 1 0)) eq_refl eq_refl). lia.
Defined.

Lemma get_changes_nothing_witness :
  ts.get 0%nat w_two = Done (Ptr 0 0) w_two.
Proof. apply (get_changes_nothing w_two 0%nat (holding (Ptr 0 0))). reflexivity. Defined.

Lemma dtor_cleans_up_once_witness :
  exists w',
    ts.dtor 0%nat w_two = Done tt w' /\
    objects w' !! 0%nat = None /\
    (Ptr 0 0 <> nullptr ->
       log w' = [EvCleanup default_delete (Ptr 0 0)] /\
       cleanups (Ptr 0 0) (log w') = 1%nat /\
       heap w' = default_delete (Ptr 0 0) (heap w_two)) /\
    (Ptr 0 0 = nullptr -> log w' = [] /\ heap w' = heap w_two).
Proof. apply (dtor_cleans_up_once w_two 0%nat (holding (Ptr 0 0))). reflexivity. Defined.

Lemma move_assign_cleans_destination_witness :
  exists w',
    ts.move_assign 1%nat 0%nat w_two = Done 1%nat w' /\
    log w' = [EvLock 1%nat; EvLock 0%nat; EvCleanup default_delete (Ptr 1 0);
              EvUnlock 1%nat; EvUnlock 0%nat] /\
    cleanups (Ptr 1 0) (log w') = 1%nat /\
    heap w' = default_delete (Ptr 1 0) (heap w_two) /\
    objects w' !! 1%nat = Some (holding (Ptr 0 0)) /\
    objects w' !! 0%nat = Some (holding nullptr).
Proof.
  apply (move_assign_cleans_destination w_two 0%nat 1%nat
           (holding (Ptr 0 0)) (holding (Ptr 1 0)));
    [reflexivity | reflexivity | lia | reflexivity | reflexivity | discriminate].
Defined.

Lemma guards_acquire_and_release_once_witness :
  ts.operator_arrow 0%nat w_two
    = Done (ts.proxy_locker.Mk (std.MkUniqueLock (Some 0%nat) true) (Ptr 0 0))
           (acquired 0%nat (holding (Ptr 0 0)) w_two) /\
  acquisitions 0%nat (log (released 0%nat w_two)) = 1%nat /\
  releases 0%nat (log (released 0%nat w_two)) = 1%nat.
Proof.
  destruct (guards_acquire_and_release_once w_two 0%nat (holding (Ptr 0 0))
              eq_refl eq_refl) as (_ & _ & _ & _ & Hacq & Hrel).
  split; [reflexivity |]. split; [exact Hacq | exact Hrel].
Defined.

Lemma subscript_is_unchecked_witness :
  load (ts.proxy_locker_for_subscript.subscript
          (ts.proxy_locker_for_subscript.Mk (std.MkUniqueLock (Some 0%nat) true) (Ptr 0 0)) 2)
       w_arr = Done 30 w_arr /\
  load (ts.proxy_locker_for_subscript.subscript
          (ts.proxy_locker_for_subscript.Mk (std.MkUniqueLock (Some 0%nat) true) (Ptr 0 0)) 3)
       w_arr = Undefined /\
  load (ts.proxy_locker_for_subscript.subscript
          (ts.proxy_locker_for_subscript.Mk (std.MkUniqueLock (Some 0%nat) true) nullptr) 0)
       w_arr = Undefined.
Proof.
  split; [| split].
  - destruct (subscript_is_unchecked
                (ts.proxy_locker_for_subscript.Mk (std.MkUniqueLock (Some 0%nat) true) (Ptr 0 0))
                2 w_arr) as (_ & Hlive & _).
    destruct (Hlive 0%nat 0 [10; 20; 30] eq_refl eq_refl) as (_ & Hin & _).
    destruct Hin as (v & Hv & Hload & _); [cbn; lia |].
    cbn in Hv. injection Hv as <-. exact Hload.
  - destruct (subscript_is_unchecked
                (ts.proxy_locker_for_subscript.Mk (std.MkUniqueLock (Some 0%nat) true) (Ptr 0 0))
                3 w_arr) as (_ & Hlive & _).
    destruct (Hlive 0%nat 0 [10; 20; 30] eq_refl eq_refl) as (_ & _ & Hout).
    apply Hout. cbn. lia.
  - destruct (subscript_is_unchecked
                (ts.proxy_locker_for_subscript.Mk (std.MkUniqueLock (Some 0%nat) true) nullptr)
                0 w_arr) as (_ & _ & Hnull).
    apply Hnull. reflexivity.
Defined.

Lemma make_unique_array_roundtrip_witness :
  (exists a b cells w1,
      ts.make_unique_array (fun k => 1000 + Z.of_nat k) 3 w0 = Done a w1 /\
      ts.get a w1 = Done (Ptr b 0) w1 /\
      Ptr b 0 <> nullptr /\
      heap w1 !! b = Some cells /\
      length cells = 3%nat /\
      (forall k, (k < 3)%nat -> cells !! k = Some (1000 + Z.of_nat k)) /\
      (exists w2 w3,
          ts.assign_all a 0 [10; 20; 30] w1 = Done tt w2 /\
          ts.read_all a 0 3 w2 = Done [10; 20; 30] w3) /\
      (forall i, ~ 0 <= i < 3 ->
          ts.subscript_read a i w1 = Undefined /\
          forall v, ts.subscript_assign a i v w1 = Undefined))
  /\
  (exists a b cells w1,
      ts.make_unique_array (fun k => 1000 + Z.of_nat k) 0 w0 = Done a w1 /\
      ts.get a w1 = Done (Ptr b 0) w1 /\
      Ptr b 0 <> nullptr /\
      heap w1 !! b = Some cells /\
      length cells = 0%nat /\
      (forall k, (k < 0)%nat -> cells !! k = Some (1000 + Z.of_nat k)) /\
      (exists w2 w3,
          ts.assign_all a 0 [] w1 = Done tt w2 /\
          ts.read_all a 0 0 w2 = Done [] w3) /\
      (forall i, ~ 0 <= i < 0 ->
          ts.subscript_read a i w1 = Undefined /\
          forall v, ts.subscript_assign a i v w1 = Undefined)).
Proof.
  split.
  - apply (make_unique_array_roundtrip (fun k => 1000 + Z.of_nat k) 3%nat
             [10; 20; 30] w0).
    reflexivity.
  - apply (make_unique_array_roundtrip (fun k => 1000 + Z.of_nat k) 0%nat [] w0).
    reflexivity.
Defined.

(** ** Beyond the single operations: how they compose *)

Section moves.
Context {T : Type}.
Implicit Types (w : world T) (c : unique_ptr T) (D : deleter T).

Lemma m_value_eta (v : std_unique_ptr T) :
  MkStdUniquePtr (_M_ptr v) (_M_deleter v) = v.
Proof. by destruct v. Qed.

Lemma unlocked_eta c :
  locked (m_mtx c) = false -> MkUniquePtr (MkMutex false) (m_value c) = c.
Proof. destruct c as [[l] v]. cbn. by intros ->. Qed.

(** What a completed move assignment leaves behind. *)
Lemma move_assign_spec w A B cA cB :
  objects w !! A = Some cA ->
  objects w !! B = Some cB ->
  B <> A ->
  locked (m_mtx cA) = false ->
  locked (m_mtx cB) = false ->
  ts.move_assign B A w
  = Done B
      (MkWorld
         (<[A:=moved_from cA]>
            (<[B:=MkUniquePtr (MkMutex false) (m_value cA)]> (objects w)))
         (if decide (_M_ptr (m_value cB) = nullptr) then heap w
          else _M_deleter (m_value cB) (_M_ptr (m_value cB)) (heap w))
         (log w ++ [EvLock B; EvLock A]
            ++ (if decide (_M_ptr (m_value cB) = nullptr) then []
                else [EvCleanup (_M_deleter (m_value cB)) (_M_ptr (m_value cB))])
            ++ [EvUnlock B; EvUnlock A])).
Proof.
  intros HA HB Hne HlA HlB.
  assert (Hmap : forall (x1 x2 x3 x4 x5 : unique_ptr T),
             <[A:=moved_from cA]>
               (<[B:=MkUniquePtr (MkMutex false)
                       (MkStdUniquePtr (_M_ptr (m_value cA)) (_M_deleter (m_value cA)))]>
                  (<[B:=x1]> (<[B:=x2]> (<[A:=x3]> (<[A:=x4]> (<[B:=x5]> (objects w)))))))
             = <[A:=moved_from cA]>
                 (<[B:=MkUniquePtr (MkMutex false) (m_value cA)]> (objects w))).
  { intros. apply map_eq. intros i.
    destruct (decide (i = A)) as [-> | HiA]; [by rewrite !lookup_insert_eq |].
    rewrite !(lookup_insert_ne _ A i) by congruence.
    destruct (decide (i = B)) as [-> | HiB].
    - rewrite !lookup_insert_eq. by rewrite m_value_eta.
    - by rewrite !lookup_insert_ne by congruence. }
  destruct (decide (_M_ptr (m_value cB) = nullptr)) as [Hq | Hq]; sim;
    unfold moved_from in Hmap; rewrite Hmap;
    do 2 f_equal; by repeat rewrite <- app_assoc.
Qed.

(** What a completed move construction leaves behind. *)
Lemma move_ctor_spec D w A cA :
  objects w !! A = Some cA ->
  locked (m_mtx cA) = false ->
  ts.move_ctor D A w
  = Done (fresh (dom (objects w)))
      (MkWorld
         (<[A:=moved_from cA]>
            (<[fresh (dom (objects w)):=MkUniquePtr (MkMutex false) (m_value cA)]>
               (objects w)))
         (heap w)
         (log w ++ [EvLock (fresh (dom (objects w))); EvLock A;
                    EvUnlock (fresh (dom (objects w))); EvUnlock A])).
Proof.
  intros HA HlA.
  pose proof (fresh_not_live w A cA HA) as Hfresh.
  set (B := fresh (dom (objects w))) in *.
  set (cB := MkUniquePtr (MkMutex false) (MkStdUniquePtr nullptr D)).
  set (w1 := MkWorld (<[B:=cB]> (objects w)) (heap w) (log w)).
  change (ts.move_ctor D A w) with (ts.move_assign B A w1).
  rewrite (move_assign_spec w1 A B cA cB); subst w1; cbn [objects heap log].
  - by rewrite insert_insert_eq.
  - by rewrite lookup_insert_ne.
  - apply lookup_insert_eq.
  - exact Hfresh.
  - exact HlA.
  - reflexivity.
Qed.

(** What destruction leaves behind. *)
Lemma dtor_spec w a c :
  objects w !! a = Some c ->
  ts.dtor a w
  = Done tt
      (MkWorld (delete a (objects w))
         (if decide (_M_ptr (m_value c) = nullptr) then heap w
          else _M_deleter (m_value c) (_M_ptr (m_value c)) (heap w))
         (log w ++ (if decide (_M_ptr (m_value c) = nullptr) then []
                    else [EvCleanup (_M_deleter (m_value c)) (_M_ptr (m_value c))]))).
Proof.
  intros Ha.
  destruct (decide (_M_ptr (m_value c) = nullptr)) as [Hp | Hp]; sim;
    rewrite ?delete_insert_eq, ?app_nil_r; reflexivity.
Qed.

End moves.

Section locking.
Context {T : Type}.
Implicit Types (w : world T) (c : unique_ptr T) (D : deleter T).

(** X1. Move-assigning a live container to itself never completes, whether
    its lock is free or held: the two acquisitions ask for the same
    non-recursive mutex. *)
Theorem self_move_assign_never_returns w a c :
  objects w !! a = Some c ->
  ts.move_assign a a w = Blocked.
Proof.
  intros Ha. destruct (locked (m_mtx c)) eqn:Hl; sim; reflexivity.
Qed.

(** X2. While the lock of a container is held, every operation of the
    container that takes the lock waits: [lock()], both access operators, a
    move construction from it, and a move assignment from it or into it,
    whatever the other (live) container is. *)
Theorem held_lock_blocks D w a c b cb :
  objects w !! a = Some c ->
  locked (m_mtx c) = true ->
  objects w !! b = Some cb ->
  ts.lock a w = Blocked /\
  ts.operator_arrow a w = Blocked /\
  ts.operator_star a w = Blocked /\
  ts.move_ctor D a w = Blocked /\
  ts.move_assign a b w = Blocked /\
  ts.move_assign b a w = Blocked.
Proof.
  intros Ha Hl Hb.
  pose proof (fresh_not_live w a c Ha) as Hfresh.
  repeat split; try (sim; reflexivity).
  destruct (decide (b = a)) as [-> | Hne]; [clear Hb; sim; reflexivity |].
  destruct (locked (m_mtx cb)) eqn:Hlb; sim; reflexivity.
Qed.

(** X3. A member call through [operator->] is the same computation as the
    call wrapped in [lock()] / [get()] / [unlock()]: same result, same final
    world, and the same outcome when it blocks or is undefined. *)
Theorem arrow_call_is_locked_call {R} w a (method : T -> T * R) :
  ts.arrow_call a method w = ts.locked_call a method w.
Proof.
  unfold ts.arrow_call, ts.locked_call, ts.proxy_locker.arrow.
  destruct (objects w !! a) as [c |] eqn:Ha; [| sim; reflexivity].
  destruct (locked (m_mtx c)) eqn:Hl; sim; reflexivity.
Qed.

End locking.

Section move_properties.
Context {T : Type}.
Implicit Types (w : world T) (c : unique_ptr T) (D : deleter T).

Lemma cleanups_locks_only p (l : list (event T)) m1 m2 :
  cleanups p (l ++ [EvLock m1; EvLock m2; EvUnlock m1; EvUnlock m2]) = cleanups p l.
Proof. rewrite cleanups_app. cbn. lia. Qed.

(** X4. A move assignment between two distinct live, unlocked containers
    touches nothing but those two: every other container is as it was, and
    both mutexes are free again afterwards.  When the destination was empty
    the free store is unchanged and no cleanup action is invoked. *)
Theorem move_assign_frame w A B cA cB :
  objects w !! A = Some cA ->
  objects w !! B = Some cB ->
  B <> A ->
  locked (m_mtx cA) = false ->
  locked (m_mtx cB) = false ->
  exists w' cA' cB',
    ts.move_assign B A w = Done B w' /\
    (forall x, x <> A -> x <> B -> objects w' !! x = objects w !! x) /\
    objects w' !! A = Some cA' /\ locked (m_mtx cA') = false /\
    objects w' !! B = Some cB' /\ locked (m_mtx cB') = false /\
    (_M_ptr (m_value cB) = nullptr ->
       heap w' = heap w /\
       forall p, cleanups p (log w') = cleanups p (log w)).
Proof.
  intros HA HB Hne HlA HlB.
  eexists _, _, _. split; [by apply (move_assign_spec w A B cA cB) |].
  cbn [objects heap log].
  split; [intros x HxA HxB; by rewrite !lookup_insert_ne by congruence |].
  split; [apply lookup_insert_eq |]. split; [reflexivity |].
  split; [rewrite lookup_insert_ne by congruence; apply lookup_insert_eq |].
  split; [reflexivity |].
  intros Hq. destruct (decide (_M_ptr (m_value cB) = nullptr)); [| contradiction].
  split; [reflexivity |]. intros p. cbn [app]. apply cleanups_locks_only.
Qed.

(** X5. Move construction from a live, unlocked container places the new
    container at an address that was not in use, gives it the source's
    pointer and cleanup action, and leaves the source live, unlocked and
    empty.  No cleanup action is invoked, and the free store and all other
    containers are unchanged. *)
Theorem move_ctor_builds_fresh_owner D w A cA :
  objects w !! A = Some cA ->
  locked (m_mtx cA) = false ->
  exists B w',
    ts.move_ctor D A w = Done B w' /\
    objects w !! B = None /\
    objects w' !! B = Some (MkUniquePtr (MkMutex false) (m_value cA)) /\
    objects w' !! A = Some (moved_from cA) /\
    (forall x, x <> A -> x <> B -> objects w' !! x = objects w !! x) /\
    heap w' = heap w /\
    (forall p, cleanups p (log w') = cleanups p (log w)).
Proof.
  intros HA HlA.
  pose proof (fresh_not_live w A cA HA) as Hfresh.
  eexists _, _. split; [by apply (move_ctor_spec D w A cA) |].
  cbn [objects heap log].
  split.
  { apply not_elem_of_dom. apply is_fresh. }
  split; [rewrite lookup_insert_ne by congruence; apply lookup_insert_eq |].
  split; [apply lookup_insert_eq |].
  split; [intros x HxA HxB; by rewrite !lookup_insert_ne by congruence |].
  split; [reflexivity |].
  intros p. apply cleanups_locks_only.
Qed.

(** X6. Ownership follows the move: after B is move-constructed from A,
    which managed a non-null object, destroying both A and B (A first)
    invokes A's original cleanup action on that object exactly once, and
    nothing else; of the containers only A is gone. *)
Theorem move_then_destroy_cleans_once D w A cA :
  objects w !! A = Some cA ->
  locked (m_mtx cA) = false ->
  _M_ptr (m_value cA) <> nullptr ->
  exists w',
    (let* B := ts.move_ctor D A in ts.dtor A;; ts.dtor B) w = Done tt w' /\
    objects w' = delete A (objects w) /\
    heap w' = _M_deleter (m_value cA) (_M_ptr (m_value cA)) (heap w) /\
    log w' = log w ++ [EvLock (fresh (dom (objects w))); EvLock A;
                       EvUnlock (fresh (dom (objects w))); EvUnlock A;
                       EvCleanup (_M_deleter (m_value cA)) (_M_ptr (m_value cA))] /\
    cleanups (_M_ptr (m_value cA)) (log w')
      = S (cleanups (_M_ptr (m_value cA)) (log w)).
Proof.
  intros HA HlA Hp.
  pose proof (fresh_not_live w A cA HA) as Hfresh.
  assert (HB : objects w !! fresh (dom (objects w)) = None)
    by (apply not_elem_of_dom, is_fresh).
  set (B := fresh (dom (objects w))) in *.
  eexists. split.
  - unfold bind at 1. rewrite (move_ctor_spec D w A cA HA HlA). fold B.
    unfold bind.
    rewrite (dtor_spec _ A (moved_from cA)) by (cbn [objects]; apply lookup_insert_eq).
    cbn [objects heap log moved_from m_value _M_ptr _M_deleter].
    rewrite !decide_True by reflexivity.
    rewrite (dtor_spec _ B (MkUniquePtr (MkMutex false) (m_value cA))).
    2:{ cbn [objects]. rewrite delete_insert_eq.
        rewrite lookup_delete_ne by congruence. apply lookup_insert_eq. }
    cbn [objects heap log m_value].
    rewrite !decide_False by exact Hp. reflexivity.
  - cbn [objects heap log].
    split.
    { apply map_eq. intros i.
      destruct (decide (i = B)) as [-> | HiB].
      - rewrite lookup_delete_eq, lookup_delete_ne by congruence. by rewrite HB.
      - rewrite (lookup_delete_ne _ B i) by congruence.
        destruct (decide (i = A)) as [-> | HiA].
        + by rewrite !lookup_delete_eq.
        + by rewrite !lookup_delete_ne, !lookup_insert_ne by congruence. }
    split; [reflexivity |].
    split; [rewrite app_nil_r, <- app_assoc; reflexivity |].
    rewrite app_nil_r, cleanups_snoc. f_equal. apply cleanups_locks_only.
Qed.

End move_properties.

Section invariant.
Context {T : Type}.
Implicit Types (w : world T) (c : unique_ptr T) (D : deleter T).

Ltac excl_cases Hex :=
  let x := fresh "x" in let y := fresh "y" in
  let cx := fresh "cx" in let cy := fresh "cy" in
  let Hx := fresh "Hx" in let Hy := fresh "Hy" in
  let Heq := fresh "Heq" in let Hnn := fresh "Hnn" in
  intros x y cx cy Hx Hy Heq Hnn; cbn [objects] in Hx, Hy;
  repeat (rewrite lookup_insert in Hx); repeat (rewrite lookup_insert in Hy);
  repeat (rewrite lookup_delete in Hx); repeat (rewrite lookup_delete in Hy);
  repeat case_decide; simplify_eq; cbn in *;
  try congruence;
  try (by eapply Hex; eauto);
  try (exfalso; match goal with
                | Hn : ?a <> ?b |- _ =>
                    apply Hn; (eapply Hex; eauto; congruence)
                end).

(** X7. The operations that create, transfer and end ownership keep the
    invariant that no two live containers manage the same object: default
    construction, construction from a pointer nobody manages yet, move
    construction, move assignment and destruction all complete in a world
    where the invariant holds again. *)
Theorem exclusive_preserved D w A cA :
  exclusive w ->
  objects w !! A = Some cA ->
  locked (m_mtx cA) = false ->
  (exists a w', ts.ctor_default D w = Done a w' /\ exclusive w') /\
  (forall p,
      (forall x cx, objects w !! x = Some cx -> _M_ptr (m_value cx) <> p) ->
      exists a w', ts.ctor D p w = Done a w' /\ exclusive w') /\
  (exists B w', ts.move_ctor D A w = Done B w' /\ exclusive w') /\
  (forall B cB,
      objects w !! B = Some cB ->
      locked (m_mtx cB) = false ->
      B <> A ->
      exists w', ts.move_assign B A w = Done B w' /\ exclusive w') /\
  (exists w', ts.dtor A w = Done tt w' /\ exclusive w').
Proof.
  intros Hex HA HlA.
  pose proof (fresh_not_live w A cA HA) as Hfresh.
  assert (HF : objects w !! fresh (dom (objects w)) = None)
    by (apply not_elem_of_dom, is_fresh).
  split; [| split; [| split; [| split]]].
  - eexists _, _. split; [reflexivity |]. excl_cases Hex.
  - intros p Hp. eexists _, _. split; [reflexivity |]. excl_cases Hex.
    + exfalso. eapply Hp; eauto.
    + exfalso. eapply Hp; eauto.
  - eexists _, _. split; [by apply (move_ctor_spec D w A cA) |].
    unfold moved_from. excl_cases Hex.
  - intros B cB HB HlB Hne.
    eexists. split; [by apply (move_assign_spec w A B cA cB) |].
    unfold moved_from. excl_cases Hex.
  - eexists. split; [by apply (dtor_spec w A cA) |]. excl_cases Hex.
Qed.

End invariant.

Section round_trips.
Context {T : Type}.
Implicit Types (w : world T) (c : unique_ptr T) (D : deleter T).

(** X8. Moving out of A into an empty container B and then back from B into
    A completes and puts A back exactly as it was, with its pointer and its
    cleanup action; B is empty again, the free store is unchanged and no
    cleanup action has been invoked. *)
Theorem move_there_and_back w A B cA cB :
  objects w !! A = Some cA ->
  objects w !! B = Some cB ->
  B <> A ->
  locked (m_mtx cA) = false ->
  locked (m_mtx cB) = false ->
  _M_ptr (m_value cB) = nullptr ->
  exists w',
    (ts.move_assign B A;; ts.move_assign A B) w = Done A w' /\
    objects w' = <[B:=moved_from cA]> (objects w) /\
    heap w' = heap w /\
    (forall p, cleanups p (log w') = cleanups p (log w)).
Proof.
  intros HA HB Hne HlA HlB Hq.
  eexists. split.
  - unfold bind. rewrite (move_assign_spec w A B cA cB) by assumption.
    rewrite (move_assign_spec _ B A (MkUniquePtr (MkMutex false) (m_value cA))
               (moved_from cA));
      cbn [objects heap log moved_from m_value m_mtx locked _M_ptr _M_deleter];
      [reflexivity | | | congruence | reflexivity | reflexivity].
    + rewrite lookup_insert_ne by congruence. apply lookup_insert_eq.
    + apply lookup_insert_eq.
  - cbn [objects heap log].
    rewrite !decide_True by (assumption || reflexivity).
    split; [| split; [reflexivity |]].
    + unfold moved_from. cbn [m_value _M_deleter].
      rewrite (unlocked_eta cA HlA).
      apply map_eq. intros i.
      destruct (decide (i = B)) as [-> | HiB]; [by rewrite !lookup_insert_eq |].
      rewrite !(lookup_insert_ne _ B i) by congruence.
      destruct (decide (i = A)) as [-> | HiA].
      * by rewrite lookup_insert_eq.
      * by rewrite !lookup_insert_ne by congruence.
    + intros p. cbn [app]. by rewrite !cleanups_locks_only.
Qed.

(** X9. Constructing a container from a pointer and a deleter and destroying
    it again completes, leaves the set of live containers exactly as it was,
    and calls that deleter, once, on that pointer when the pointer is not
    null; for a null pointer the world is unchanged. *)
Theorem ctor_with_deleter_then_dtor w p (d : deleter T) :
  (let* a := ts.ctor_with_deleter p d in ts.dtor a) w
  = Done tt
      (MkWorld (objects w)
         (if decide (p = nullptr) then heap w else d p (heap w))
         (log w ++ (if decide (p = nullptr) then [] else [EvCleanup d p]))).
Proof.
  assert (HF : objects w !! fresh (dom (objects w)) = None)
    by (apply not_elem_of_dom, is_fresh).
  unfold bind, ts.ctor_with_deleter, construct.
  rewrite (dtor_spec _ _ (MkUniquePtr (MkMutex false) (MkStdUniquePtr p d)))
    by (cbn [objects]; apply lookup_insert_eq).
  cbn [objects heap log m_value _M_ptr _M_deleter].
  rewrite delete_insert_eq, delete_id by exact HF. reflexivity.
Qed.

(** X10. Nothing leaks: [make_unique<T>(args...)] followed by destruction,
    and [make_unique<T[]>(n)] followed by destruction, complete and give the
    free store and the set of live containers back exactly as they were,
    with one call of the default deleter on the allocated pointer. *)
Theorem make_unique_then_dtor_restores (v : T) (leftover : nat -> T) (n : nat) w :
  (let* a := ts.make_unique v in ts.dtor a) w
  = Done tt (MkWorld (objects w) (heap w)
               (log w ++ [EvCleanup default_delete (Ptr (fresh (dom (heap w))) 0)]))
  /\
  (let* a := ts.make_unique_array leftover n in ts.dtor a) w
  = Done tt (MkWorld (objects w) (heap w)
               (log w ++ [EvCleanup default_delete (Ptr (fresh (dom (heap w))) 0)])).
Proof.
  assert (HF : objects w !! fresh (dom (objects w)) = None)
    by (apply not_elem_of_dom, is_fresh).
  assert (HH : heap w !! fresh (dom (heap w)) = None)
    by (apply not_elem_of_dom, is_fresh).
  split.
  - unfold ts.make_unique, new_object, ts.ctor, construct, bind.
    cbn [objects heap log].
    rewrite (dtor_spec _ _ (MkUniquePtr (MkMutex false)
               (MkStdUniquePtr (Ptr (fresh (dom (heap w))) 0) default_delete)))
      by (cbn [objects]; apply lookup_insert_eq).
    cbn [objects heap log m_value _M_ptr _M_deleter default_delete].
    rewrite !decide_False by discriminate.
    rewrite !delete_insert_eq, !delete_id by assumption. reflexivity.
  - unfold ts.make_unique_array, new_array, ts.ctor, construct, bind.
    cbn [objects heap log].
    rewrite (dtor_spec _ _ (MkUniquePtr (MkMutex false)
               (MkStdUniquePtr (Ptr (fresh (dom (heap w))) 0) default_delete)))
      by (cbn [objects]; apply lookup_insert_eq).
    cbn [objects heap log m_value _M_ptr _M_deleter default_delete].
    rewrite !decide_False by discriminate.
    rewrite !delete_insert_eq, !delete_id by assumption. reflexivity.
Qed.

End round_trips.

Section access.
Context {T : Type}.
Implicit Types (w : world T) (c : unique_ptr T) (cells : list T).

(** One guarded member call on the object the container owns. *)
Lemma arrow_call_spec {R} w a c b cells obj (method : T -> T * R) :
  objects w !! a = Some c ->
  locked (m_mtx c) = false ->
  _M_ptr (m_value c) = Ptr b 0 ->
  heap w !! b = Some cells ->
  cells !! 0%nat = Some obj ->
  ts.arrow_call a method w
  = Done (snd (method obj))
      (MkWorld (objects w) (<[b:=<[0%nat:=fst (method obj)]> cells]> (heap w))
         (log w ++ [EvLock a; EvUnlock a])).
Proof.
  intros Ha Hl Hp Hb Hobj.
  assert (Hlen : (0 < length cells)%nat) by (by eapply lookup_lt_Some).
  unfold ts.arrow_call, ts.proxy_locker.arrow. sim. rewrite Hp.
  rewrite (load_in_bounds _ b 0 cells obj) by (cbn [heap]; first [assumption | lia]).
  rewrite (store_in_bounds _ b 0 cells) by (cbn [heap]; first [assumption | lia]).
  sim. rewrite relock_restores by assumption.
  by rewrite <- app_assoc.
Qed.

(** X11. Assigning to element [i] of the managed array through the indexed
    guard and then reading element [j] the same way returns the assigned
    value when [j = i] and the element's previous value otherwise. *)
Theorem subscript_assign_then_read w a c b cells (i j : nat) v :
  objects w !! a = Some c ->
  locked (m_mtx c) = false ->
  _M_ptr (m_value c) = Ptr b 0 ->
  heap w !! b = Some cells ->
  (i < length cells)%nat ->
  (j < length cells)%nat ->
  exists x w',
    (ts.subscript_assign a (Z.of_nat i) v;; ts.subscript_read a (Z.of_nat j)) w
    = Done x w' /\
    (j = i -> x = v) /\
    (j <> i -> cells !! j = Some x).
Proof.
  intros Ha Hl Hp Hb Hi Hj.
  destruct (lookup_lt_is_Some_2 (<[i:=v]> cells) j) as [x Hx];
    [by rewrite length_insert |].
  exists x. eexists. split.
  - unfold bind.
    rewrite (subscript_assign_in_bounds w a c b cells i v) by assumption.
    rewrite (subscript_read_in_bounds _ a c b (<[i:=v]> cells) j x);
      cbn [objects heap]; try done.
    apply lookup_insert_eq.
  - split.
    + intros ->. rewrite list_lookup_insert_eq in Hx by exact Hi. congruence.
    + intros Hne. by rewrite list_lookup_insert_ne in Hx by congruence.
Qed.

(** X12. [n] member calls in a row through [operator->] complete, apply the
    member function [n] times to the managed object, and take and release
    the container's lock once per call; everything else is unchanged. *)
Theorem arrow_call_n_iterates (method : T -> T) (n : nat) :
  forall w a c b cells obj,
    objects w !! a = Some c ->
    locked (m_mtx c) = false ->
    _M_ptr (m_value c) = Ptr b 0 ->
    heap w !! b = Some cells ->
    cells !! 0%nat = Some obj ->
    ts.arrow_call_n a method n w
    = Done tt
        (MkWorld (objects w)
           (<[b:=<[0%nat:=Nat.iter n method obj]> cells]> (heap w))
           (log w ++ concat (replicate n [EvLock a; EvUnlock a]))).
Proof.
  induction n as [| n IH]; intros w a c b cells obj Ha Hl Hp Hb Hobj.
  - cbn. rewrite list_insert_id by exact Hobj.
    rewrite insert_id by exact Hb. rewrite app_nil_r. by destruct w.
  - assert (Hlen : (0 < length cells)%nat) by (by eapply lookup_lt_Some).
    cbn [ts.arrow_call_n]. unfold bind at 1.
    rewrite (arrow_call_spec w a c b cells obj) by assumption.
    cbn [fst snd].
    rewrite (IH _ a c b (<[0%nat:=method obj]> cells) (method obj));
      cbn [objects heap log]; try done.
    + rewrite insert_insert_eq, list_insert_insert_eq, log_accesses_S.
      by rewrite Nat.iter_succ_r.
    + apply lookup_insert_eq.
    + by apply list_lookup_insert_eq.
Qed.

(** X13. Nothing checks for an empty container: on a live, unlocked container
    whose managed pointer is null, [operator->] still completes, with the
    lock taken and a guard that yields null, and a member call or an element
    access through the container is undefined rather than reported. *)
Theorem empty_container_access_is_undefined {R} w a c (method : T -> T * R) i v :
  objects w !! a = Some c ->
  locked (m_mtx c) = false ->
  _M_ptr (m_value c) = nullptr ->
  (exists g, ts.operator_arrow a w = Done g (acquired a c w) /\
             ts.proxy_locker.arrow g = nullptr) /\
  ts.arrow_call a method w = Undefined /\
  ts.subscript_read a i w = Undefined /\
  ts.subscript_assign a i v w = Undefined.
Proof.
  intros Ha Hl Hp. split.
  - eexists. split; [unfold acquired; sim; reflexivity |]. exact Hp.
  - unfold ts.arrow_call, ts.subscript_read, ts.subscript_assign,
      ts.proxy_locker.arrow, ts.proxy_locker_for_subscript.subscript.
    repeat split; sim; rewrite Hp; reflexivity.
Qed.

(** X14. [make_unique<T>(args...)] completes and yields a new container, at
    an address not in use before, that owns a newly allocated object holding
    the constructed value: [get()] is not null, and reading the object
    through [operator->] returns that value and changes nothing but the
    lock log. *)
Theorem make_unique_holds_value (v : T) w :
  exists a b w1,
    ts.make_unique v w = Done a w1 /\
    objects w !! a = None /\
    heap w !! b = None /\
    ts.get a w1 = Done (Ptr b 0) w1 /\
    load (Ptr b 0) w1 = Done v w1 /\
    ts.arrow_call a (fun obj => (obj, obj)) w1 = Done v (released a w1).
Proof.
  set (c := MkUniquePtr (MkMutex false)
              (MkStdUniquePtr (Ptr (fresh (dom (heap w))) 0) (@default_delete T))).
  eexists _, (fresh (dom (heap w))), _.
  split; [unfold ts.make_unique, new_object; sim; reflexivity |].
  fold c. set (w1 := MkWorld _ _ _).
  assert (Ha : objects w1 !! fresh (dom (objects w)) = Some c)
    by (subst w1; cbn [objects]; apply lookup_insert_eq).
  assert (Hb : heap w1 !! fresh (dom (heap w)) = Some [v])
    by (subst w1; cbn [heap]; apply lookup_insert_eq).
  split; [apply not_elem_of_dom, is_fresh |].
  split; [apply not_elem_of_dom, is_fresh |].
  split; [by rewrite (get_of_live w1 _ c Ha) |].
  split; [by apply (load_in_bounds w1 _ 0 [v] v) |].
  rewrite (arrow_call_spec w1 _ c (fresh (dom (heap w))) [v] v) by done.
  cbn [fst snd]. unfold released. do 2 f_equal.
  cbn [insert list_insert]. by apply insert_id.
Qed.

End access.

(** ** The properties above on concrete worlds *)

Lemma exclusive_w_two : exclusive w_two.
Proof.
  intros x y cx cy Hx Hy Heq Hnn. unfold w_two in Hx, Hy. cbn [objects] in Hx, Hy.
  rewrite lookup_insert in Hx. rewrite lookup_insert in Hy.
  repeat case_decide; simplify_eq; try reflexivity;
    rewrite ?lookup_singleton in *; repeat case_decide; simplify_eq;
    try reflexivity; cbn in *; congruence.
Qed.

Lemma self_move_assign_never_returns_witness :
  ts.move_assign 0%nat 0%nat w_two = Blocked /\
  ts.move_assign 0%nat 0%nat w_held = Blocked.
Proof.
  split.
  - apply (self_move_assign_never_returns w_two 0%nat (holding (Ptr 0 0))). reflexivity.
  - apply (self_move_assign_never_returns w_held 0%nat
             (MkUniquePtr (MkMutex true) (MkStdUniquePtr (Ptr 0 0) default_delete))).
    reflexivity.
Defined.

Lemma held_lock_blocks_witness :
  ts.lock 0%nat w_held = Blocked /\
  ts.operator_arrow 0%nat w_held = Blocked /\
  ts.operator_star 0%nat w_held = Blocked /\
  ts.move_ctor default_delete 0%nat w_held = Blocked /\
  ts.move_assign 0%nat 1%nat w_held = Blocked /\
  ts.move_assign 1%nat 0%nat w_held = Blocked.
Proof.
  apply (held_lock_blocks default_delete w_held 0%nat
           (MkUniquePtr (MkMutex true) (MkStdUniquePtr (Ptr 0 0) default_delete))
           1%nat (holding (Ptr 1 0)));
    reflexivity.
Defined.

Lemma move_assign_frame_witness :
  exists w' cA' cB',
    ts.move_assign 1%nat 0%nat w_one_empty = Done 1%nat w' /\
    (forall x, x <> 0%nat -> x <> 1%nat ->
               objects w' !! x = objects w_one_empty !! x) /\
    objects w' !! 0%nat = Some cA' /\ locked (m_mtx cA') = false /\
    objects w' !! 1%nat = Some cB' /\ locked (m_mtx cB') = false /\
    (nullptr = nullptr ->
       heap w' = heap w_one_empty /\
       forall p, cleanups p (log w') = cleanups p (log w_one_empty)).
Proof.
  apply (move_assign_frame w_one_empty 0%nat 1%nat (holding (Ptr 0 0)) (holding nullptr));
    first [reflexivity | lia].
Defined.

Lemma move_ctor_builds_fresh_owner_witness :
  exists B w',
    ts.move_ctor default_delete 0%nat w_two = Done B w' /\
    objects w_two !! B = None /\
    objects w' !! B = Some (holding (Ptr 0 0)) /\
    objects w' !! 0%nat = Some (holding nullptr) /\
    (forall x, x <> 0%nat -> x <> B -> objects w' !! x = objects w_two !! x) /\
    heap w' = heap w_two /\
    (forall p, cleanups p (log w') = cleanups p (log w_two)).
Proof.
  apply (move_ctor_builds_fresh_owner default_delete w_two 0%nat (holding (Ptr 0 0)));
    reflexivity.
Defined.

Lemma move_then_destroy_cleans_once_witness :
  exists w',
    (let* B := ts.move_ctor default_delete 0%nat in
     ts.dtor 0%nat;; ts.dtor B) w_two = Done tt w' /\
    objects w' = delete 0%nat (objects w_two) /\
    heap w' = default_delete (Ptr 0 0) (heap w_two) /\
    log w' = [EvLock 2%nat; EvLock 0%nat; EvUnlock 2%nat; EvUnlock 0%nat;
              EvCleanup default_delete (Ptr 0 0)] /\
    cleanups (Ptr 0 0) (log w') = 1%nat.
Proof.
  apply (move_then_destroy_cleans_once default_delete w_two 0%nat (holding (Ptr 0 0)));
    first [reflexivity | discriminate].
Defined.

Lemma exclusive_preserved_witness :
  (exists B w', ts.move_ctor default_delete 0%nat w_two = Done B w' /\ exclusive w') /\
  (exists w', ts.move_assign 1%nat 0%nat w_two = Done 1%nat w' /\ exclusive w') /\
  (exists w', ts.dtor 0%nat w_two = Done tt w' /\ exclusive w').
Proof.
  destruct (exclusive_preserved default_delete w_two 0%nat (holding (Ptr 0 0))
              exclusive_w_two eq_refl eq_refl) as (_ & _ & Hc & Ha & Hd).
  split; [exact Hc |]. split; [| exact Hd].
  apply (Ha 1%nat (holding (Ptr 1 0)) eq_refl eq_refl). lia.
Defined.

Lemma move_there_and_back_witness :
  exists w',
    (ts.move_assign 1%nat 0%nat;; ts.move_assign 0%nat 1%nat) w_one_empty
    = Done 0%nat w' /\
    objects w' = <[1%nat:=holding nullptr]> (objects w_one_empty) /\
    heap w' = heap w_one_empty /\
    (forall p, cleanups p (log w') = cleanups p (log w_one_empty)).
Proof.
  apply (move_there_and_back w_one_empty 0%nat 1%nat (holding (Ptr 0 0)) (holding nullptr));
    first [reflexivity | lia].
Defined.

Lemma subscript_assign_then_read_witness :
  exists x w',
    (ts.subscript_assign 0%nat 1 99;; ts.subscript_read 0%nat 2) w_arr = Done x w' /\
    (2%nat = 1%nat -> x = 99) /\
    (2%nat <> 1%nat -> [10; 20; 30] !! 2%nat = Some x).
Proof.
  apply (subscript_assign_then_read w_arr 0%nat (holding (Ptr 0 0)) 0%nat
           [10; 20; 30] 1%nat 2%nat 99);
    first [reflexivity | cbn; lia].
Defined.

Lemma arrow_call_n_iterates_witness :
  ts.arrow_call_n 0%nat Z.succ 3 w_two
  = Done tt (MkWorld (objects w_two)
               (<[0%nat:=<[0%nat:=Nat.iter 3 Z.succ 7]> [7]]> (heap w_two))
               (log w_two ++ concat (replicate 3 [EvLock 0%nat; EvUnlock 0%nat]))).
Proof.
  apply (arrow_call_n_iterates Z.succ 3 w_two 0%nat (holding (Ptr 0 0)) 0%nat [7] 7);
    reflexivity.
Defined.

Lemma empty_container_access_is_undefined_witness :
  (exists g, ts.operator_arrow 1%nat w_one_empty
             = Done g (acquired 1%nat (holding nullptr) w_one_empty) /\
             ts.proxy_locker.arrow g = nullptr) /\
  ts.arrow_call 1%nat (fun obj : Z => (obj + 1, tt)) w_one_empty = Undefined /\
  ts.subscript_read 1%nat 0 w_one_empty = Undefined /\
  ts.subscript_assign 1%nat 0 5 w_one_empty = Undefined.
Proof.
  apply (empty_container_access_is_undefined w_one_empty 1%nat (holding nullptr));
    reflexivity.
Defined.

(** ** Two threads moving at once *)

Section thread_effects.
Context {T : Type}.
Implicit Types (w : world T) (m : addr).

Import threads.











End thread_effects.

Section deadlock_freedom.
Context {T : Type}.
Implicit Types (w : world T) (m : addr) (t u : threads.thread).
Implicit Types (s : threads.system T) (D : deleter T).

Import threads.




















End deadlock_freedom.

Section threads_and_moves.
Context {T : Type}.
Implicit Types (w : world T) (D : deleter T).

Import threads.

Ltac run_thread :=
  first [ progress cbn [run_alone thread_step first second goto
                        t_pc t_this t_other t_swapped]
        | sim_step
        | progress unfold_ops ].

(** The steps of a thread are the sequential move cut into its atomic calls:
    a thread that runs alone on distinct live, unlocked containers ends
    after five steps (six for a construction) in the world the sequential
    move assignment (move construction) returns. *)
Lemma thread_alone_is_the_move D w A B cA cB :
  objects w !! A = Some cA ->
  objects w !! B = Some cB ->
  B <> A ->
  locked (m_mtx cA) = false ->
  locked (m_mtx cB) = false ->
  (exists w',
      ts.move_assign B A w = Done B w' /\
      run_alone D 5 (MkThread B A false AtLock) w = (MkThread B A false AtEnd, w'))
  /\
  (exists C w',
      ts.move_ctor D A w = Done C w' /\
      run_alone D 6 (MkThread 0%nat A false AtConstruct) w
      = (MkThread C A false AtEnd, w')).
Proof.
  intros HA HB Hne HlA HlB.
  pose proof (fresh_not_live w A cA HA) as Hfresh.
  split.
  - destruct (decide (_M_ptr (m_value cB) = nullptr)) as [Hq | Hq].
    + eexists. split; [sim; reflexivity |].
      repeat run_thread. reflexivity.
    + eexists. split; [sim; reflexivity |].
      repeat run_thread. reflexivity.
  - eexists _, _. split; [sim; reflexivity |].
    repeat run_thread. reflexivity.
Qed.

End threads_and_moves.


Lemma crossed_is_reachable step :
  step t_into_1 w_two
    = Some (threads.goto t_into_1 threads.AtTry,
            MkWorld {[ 0%nat := holding (Ptr 0 0);
                       1%nat := MkUniquePtr (MkMutex true)
                                  (MkStdUniquePtr (Ptr 1 0) default_delete) ]}
                    {[ 0%nat := [7]; 1%nat := [8] ]} [EvLock 1%nat]) ->
  step t_into_0
       (MkWorld {[ 0%nat := holding (Ptr 0 0);
                   1%nat := MkUniquePtr (MkMutex true)
                              (MkStdUniquePtr (Ptr 1 0) default_delete) ]}
                {[ 0%nat := [7]; 1%nat := [8] ]} [EvLock 1%nat])
    = Some (threads.goto t_into_0 threads.AtTry, w_crossed) ->
  rtc (threads.sys_step step) (threads.MkSystem t_into_1 t_into_0 w_two) s_crossed.
Proof.
  intros H1 H2.
  eapply rtc_l; [apply threads.step_th1; exact H1 |].
  eapply rtc_l; [apply threads.step_th2; exact H2 |].
  apply rtc_refl.
Qed.

(** With two blocking acquisitions in a row the reverse-order moves do
    deadlock: once each thread has taken the mutex of its own container,
    neither can move. *)
Lemma sequential_acquisition_deadlocks :
  rtc (threads.sys_step (threads.sequential_step default_delete))
      (threads.MkSystem t_into_1 t_into_0 w_two) s_crossed /\
  threads.deadlocked (threads.sequential_step default_delete) s_crossed = true.
Proof.
  split; [apply crossed_is_reachable; vm_compute; reflexivity |].
  vm_compute. reflexivity.
Qed.

